(** * async_mqtt: the socket-backed client connection and the endpoint value

    A shallow embedding of two headers of the repository:

    - [include/ip/endpoint.hpp]: [ip::endpoint], a fixed-capacity copy of a
      socket address together with its length;
    - [example/mqtt_pub.hpp]: [mqtt_connection<SocketType>], the class that
      implements the callbacks of [async_mqtt::connection<role::client>] on
      top of a socket offering [Send], [Recv] and [Close].

    Memory is modelled as lists of bytes, unsigned machine integers as [N],
    [ssize_t] as [Z].  Calls that leave the class (to the socket, to the
    protocol engine, to [std::cout]) are recorded, in order, in a trace. *)

From Stdlib Require Import ZArith NArith Lia List.
From Stdlib Require Import Strings.Byte.
From stdpp Require Import base strings list gmap sets.

Open Scope N_scope.

(** ** Memory *)

(** A region of memory is the list of its bytes. *)
Definition bytes := list Byte.byte.

Definition zero_bytes (n : nat) : bytes := replicate n Byte.x00.

(** [std::memcpy(dest + off, src, n)].  The call reads [n] bytes at [src]
    and writes them at offset [off] of the object [dest]; reading past the
    end of [src] or writing past the end of [dest] is undefined behaviour,
    which is returned as [None]. *)
Definition memcpy (dest : bytes) (off : nat) (src : bytes) (n : nat) : option bytes :=
  if decide (n ≤ length src ∧ off + n ≤ length dest)%nat
  then Some (list_inserts off (take n src) dest)
  else None.

(** ** [ip::endpoint] *)

Module ip.

(** [::socklen_t] is an unsigned 32-bit integer. *)
Definition socklen_t := N.
Definition socklen_t_cast (n : N) : socklen_t := n mod 2 ^ 32.

(** [sizeof(::sockaddr_storage)], from [<sys/socket.h>]. *)
Definition sizeof_sockaddr_storage : N := 128.

(** The number of bytes of the member [d_data]. *)
Definition capacity : nat := N.to_nat sizeof_sockaddr_storage.

Record endpoint := mk_endpoint {
  d_data : bytes;      (* ::sockaddr_storage d_data{} *)
  d_size : socklen_t   (* ::socklen_t d_size{sizeof(::sockaddr_storage)} *)
}.

(** [endpoint() = default]: the member initialisers. *)
Definition endpoint_default : endpoint :=
  {| d_data := zero_bytes capacity;
     d_size := socklen_t_cast sizeof_sockaddr_storage |}.

(** [endpoint(const void *data, ::socklen_t size)].  [d_size] is
    initialised from [size]; [d_data] is value-initialised and then
    receives [std::min(size, socklen_t(sizeof(sockaddr_storage)))] bytes
    from [data].  [data] is the memory readable at the pointer. *)
Definition endpoint_of_bytes (data : bytes) (size : socklen_t) : option endpoint :=
  let n := N.min size (socklen_t_cast sizeof_sockaddr_storage) in
  match memcpy (zero_bytes capacity) 0 data (N.to_nat n) with
  | Some d => Some {| d_data := d; d_size := size |}
  | None => None
  end.

(** The argument of the template constructor: any type with [data()] and
    [size()]. *)
Class DataSize (ET : Type) := {
  et_data : ET → bytes;
  et_size : ET → socklen_t
}.

(** [template <typename ET> endpoint(ET &e) : endpoint(e.data(), e.size())]. *)
Definition endpoint_of {ET} `{DataSize ET} (e : ET) : option endpoint :=
  endpoint_of_bytes (et_data e) (et_size e).

(** [storage()] and [data()]: both give the member [d_data], the second
    one seen as a [::sockaddr]. *)
Definition storage (e : endpoint) : bytes := d_data e.
Definition data (e : endpoint) : bytes := d_data e.

(** [size() const]. *)
Definition size (e : endpoint) : socklen_t := d_size e.

(** An assignment through the reference returned by the non-const
    [storage()] (or through the pointer returned by [data()]): the whole
    record is replaced.  A record has [capacity] bytes. *)
Definition set_storage (e : endpoint) (s : bytes) : endpoint :=
  {| d_data := s; d_size := d_size e |}.

(** An assignment through the reference returned by the non-const
    [size()]. *)
Definition set_size (e : endpoint) (n : socklen_t) : endpoint :=
  {| d_data := d_data e; d_size := n |}.


End ip.

(** ** The protocol engine, as [mqtt_connection] sees it

    [mqtt_connection] derives from [async_mqtt::connection<role::client>].
    That class and its packet types live in
    [async_mqtt/protocol/connection.hpp], outside the two headers embedded
    here. *)

(** Modelled from the spec: [am::packet_id_type] (declared by the engine),
    the token that tags an in-flight acknowledged packet.  It is a 16-bit
    identifier and 0 is not a valid one, so the pool is 1..65535. *)
Definition packet_id_type := N.
Definition packet_id_max : N := 65535.

(** Modelled from the spec: [am::qos] (declared by the engine), the three
    quality-of-service levels. *)
Inductive qos := at_most_once | at_least_once | exactly_once.

(** Modelled from the spec: [am::connect_reason_code], [make_error_code]
    and the conversion of the resulting [am::error_code] to [bool] (all
    declared by the engine).  A connect-acknowledgement carries a one-byte
    reason code, which is either the success code or a failure code; the
    error code made from it converts to [true] for a failure.  Success is
    the code 0. *)
Definition connect_reason_code := N.
Definition error_code := Z.
Definition make_error_code (c : connect_reason_code) : error_code := Z.of_N c.
Definition error_code_bool (ec : error_code) : bool := negb (ec =? 0)%Z.

(** Modelled from the spec: [am::v5::publish_packet] (declared by the
    engine).  A publish carries a topic, a payload, a quality-of-service
    level and, above [at_most_once], a packet identifier; the constructor
    without identifier gives [None]. *)
Record publish_packet := mk_publish {
  pub_packet_id : option packet_id_type;
  pub_topic : string;
  pub_payload : string;
  pub_qos : qos
}.

(** Modelled from the spec: [am::packet_variant] (declared by the engine),
    with the alternatives that [on_receive] tells apart; every other
    alternative is [other_packet]. *)
Inductive packet_variant :=
| v5_connack_packet (code : connect_reason_code)
| v5_publish_packet (p : publish_packet)
| v5_puback_packet (pid : packet_id_type)
| v5_pubrec_packet (pid : packet_id_type)
| v5_pubrel_packet (pid : packet_id_type)
| v5_pubcomp_packet (pid : packet_id_type)
| v5_disconnect_packet
| other_packet (index : nat).

(** Modelled from the spec: the member functions of the base class
    [am::connection<role::client>] that [mqtt_connection] calls, over the
    state [E] of the engine.  [acquire_unique_packet_id] returns a
    [std::optional]; [send] hands a packet to the engine for sending. *)
Class connection (E : Type) := {
  acquire_unique_packet_id : E → option packet_id_type * E;
  release_packet_id : packet_id_type → E → E;
  send : packet_variant → E → E;
  notify_closed : E → E
}.

(** ** The socket *)

(** [has_socket_api<T>]: the three member functions the [static_assert]
    asks of [SocketType], over the state [T] of the socket.
    [ssize_t Send(const void*, size_t, int, int)],
    [ssize_t Recv(void*, size_t, int, int)] (which also gives the bytes it
    stored) and [int Close()]. *)
Class has_socket_api (T : Type) := {
  Send : T → bytes → N → Z → Z → Z * T;
  Recv : T → N → Z → Z → Z * bytes * T;
  Close : T → Z * T
}.

(** ** What a member function leaves behind *)

(** One entry per call that leaves [mqtt_connection]. *)
Inductive event :=
| ev_cout (s : string)
| ev_Send (buf : bytes) (len : N) (flags timeout : Z)
| ev_Close
| ev_notify_closed
| ev_release_packet_id (pid : packet_id_type)
| ev_acquire_unique_packet_id (r : option packet_id_type)
| ev_send (p : packet_variant).

(** [am::system_error], the only exception type the class names.  The
    [errno] it is built from is not kept. *)
Inductive exception := system_error (what : string).

(** A call returns, leaves by an exception, or has undefined behaviour;
    each time with the state it had reached. *)
Inductive outcome (W A : Type) :=
| Returns (a : A) (w : W)
| Throws (e : exception) (w : W)
| Undefined (w : W).
Arguments Returns {W A} a w.
Arguments Throws {W A} e w.
Arguments Undefined {W A} w.

Definition final_state {W A} (o : outcome W A) : W :=
  match o with
  | Returns _ w | Throws _ w | Undefined w => w
  end.

(** [std::size_t] is an unsigned 64-bit integer. *)
Definition size_t := N.
Definition size_t_cast (n : N) : size_t := n mod 2 ^ 64.
Definition size_t_add (a b : size_t) : size_t := size_t_cast (a + b).

(** [static_cast<std::size_t>(sent)] for an [ssize_t]: the value modulo
    [2^64]. *)
Definition static_cast_size_t (z : Z) : size_t := Z.to_N (z mod 2 ^ 64).

(** [buf.size()]: the number of bytes of a segment. *)
Definition buf_size (buf : bytes) : size_t := N.of_nat (length buf).

(** The number of bytes of the segments of a packet taken together. *)
Definition segments_total (buffers : list bytes) : N :=
  N.of_nat (sum_list_with length buffers).

(** The first loop of [on_send]:
    [for (const auto &buf : buffers) total_size += buf.size();]. *)
Definition total_size_of (buffers : list bytes) : size_t :=
  fold_left (λ total_size buf, size_t_add total_size (buf_size buf)) buffers 0.

(** The second loop of [on_send]: each segment is copied at [dest], and
    [dest] moves past it.  [dest] is the offset of the pointer in
    [flat_buffer]. *)
Fixpoint copy_buffers (buffers : list bytes) (flat_buffer : bytes) (dest : nat)
  : option bytes :=
  match buffers with
  | [] => Some flat_buffer
  | buf :: rest =>
      match memcpy flat_buffer dest buf (N.to_nat (buf_size buf)) with
      | Some flat_buffer' =>
          copy_buffers rest flat_buffer' (dest + N.to_nat (buf_size buf))
      | None => None
      end
  end.

(** ** [mqtt_connection<SocketType>] *)

Section mqtt_connection.

Context {SocketType : Type} `{!has_socket_api SocketType}.
Context {Engine : Type} `{!connection Engine}.

(** [packet.const_buffer_sequence()]: the wire representation of a packet
    as the engine lays it out, one list of bytes per segment. *)
Variable const_buffer_sequence : packet_variant → list bytes.

(** The object: the member [socket_], the state of the base class, and the
    calls made so far. *)
Record mqtt_connection := mk_mqtt_connection {
  socket_ : SocketType;
  engine_ : Engine;
  trace : list event
}.

(** The constructor moves the socket in; [engine] is the state of the base
    class once it is built for protocol version 5 and
    [set_auto_pub_response(true)] has been called.  No call has left the
    class yet. *)
Definition mqtt_connection_new (socket : SocketType) (engine : Engine)
  : mqtt_connection :=
  {| socket_ := socket; engine_ := engine; trace := [] |}.

(** [SocketType &socket()]. *)
Definition socket (c : mqtt_connection) : SocketType := socket_ c.

(** A member function: from the state of the object to an outcome. *)
Definition M (A : Type) : Type := mqtt_connection → outcome mqtt_connection A.

#[global] Instance M_ret : MRet M := λ A a c, Returns a c.

#[global] Instance M_bind : MBind M := λ A B k m c,
  match m c with
  | Returns a c' => k a c'
  | Throws e c' => Throws e c'
  | Undefined c' => Undefined c'
  end.

Definition throw {A} (e : exception) : M A := λ c, Throws e c.

Definition undefined_behaviour {A} : M A := λ c, Undefined c.

(** [try { body } catch (am::system_error const &se) { handler }]. *)
Definition try_catch {A} (body : M A) (handler : exception → M A) : M A := λ c,
  match body c with
  | Throws (system_error what) c' => handler (system_error what) c'
  | o => o
  end.

Definition record (e : event) : M () := λ c,
  Returns () {| socket_ := socket_ c; engine_ := engine_ c;
                trace := trace c ++ [e] |}.

(** One output statement on [std::cout]: the literal that starts it is
    kept (the empty string when it starts with a value). *)
Definition cout (s : string) : M () := record (ev_cout s).

(** [socket_.Send(buf, len, flags, timeout)]. *)
Definition socket_Send (buf : bytes) (len : size_t) (flags timeout : Z) : M Z := λ c,
  let '(sent, s) := Send (socket_ c) buf len flags timeout in
  Returns sent {| socket_ := s; engine_ := engine_ c;
                  trace := trace c ++ [ev_Send buf len flags timeout] |}.

(** [socket_.Close()]; the result is never used. *)
Definition socket_Close : M () := λ c,
  let '(_, s) := Close (socket_ c) in
  Returns () {| socket_ := s; engine_ := engine_ c;
                trace := trace c ++ [ev_Close] |}.

(** The calls to the base class. *)
Definition call_notify_closed : M () := λ c,
  Returns () {| socket_ := socket_ c; engine_ := notify_closed (engine_ c);
                trace := trace c ++ [ev_notify_closed] |}.

Definition call_release_packet_id (pid : packet_id_type) : M () := λ c,
  Returns () {| socket_ := socket_ c; engine_ := release_packet_id pid (engine_ c);
                trace := trace c ++ [ev_release_packet_id pid] |}.

Definition call_acquire_unique_packet_id : M (option packet_id_type) := λ c,
  let '(r, e) := acquire_unique_packet_id (engine_ c) in
  Returns r {| socket_ := socket_ c; engine_ := e;
               trace := trace c ++ [ev_acquire_unique_packet_id r] |}.

Definition call_send (p : packet_variant) : M () := λ c,
  Returns () {| socket_ := socket_ c; engine_ := send p (engine_ c);
                trace := trace c ++ [ev_send p] |}.

(** [*o] for a [std::optional]: undefined when [o] is empty. *)
Definition deref {A} (o : option A) : M A :=
  match o with
  | Some a => mret a
  | None => undefined_behaviour
  end.

(** [void on_error(am::error_code ec)]. *)
Definition on_error (ec : error_code) : M () :=
  cout "on_error: " ;;
  socket_Close ;;
  call_notify_closed.

(** [void on_close()]. *)
Definition on_close : M () :=
  cout "on_close" ;;
  socket_Close ;;
  call_notify_closed.

(** The statement that both the failure branch and the handler of
    [on_send] contain: when [release_packet_id_if_send_error] holds an
    identifier, [release_packet_id] is called with it. *)
Definition release_if_present (release_packet_id_if_send_error : option packet_id_type)
  : M () :=
  match release_packet_id_if_send_error with
  | Some pid => call_release_packet_id pid
  | None => mret ()
  end.

(** [void on_send(am::packet_variant packet,
                  std::optional<am::packet_id_type> release_packet_id_if_send_error)]. *)
Definition on_send (packet : packet_variant)
    (release_packet_id_if_send_error : option packet_id_type) : M () :=
  cout "send:" ;;
  try_catch
    (let buffers := const_buffer_sequence packet in
     let total_size := total_size_of buffers in
     let flat_buffer := zero_bytes (N.to_nat total_size) in
     flat_buffer ← (match copy_buffers buffers flat_buffer 0 with
                    | Some flat_buffer' => mret flat_buffer'
                    | None => undefined_behaviour
                    end) ;
     sent ← socket_Send flat_buffer (N.of_nat (length flat_buffer)) 0 (-1) ;
     if (sent <? 0)%Z || negb (static_cast_size_t sent =? total_size)
     then
       release_if_present release_packet_id_if_send_error ;;
       throw (system_error "send failed")
     else mret ())
    (λ se,
       release_if_present release_packet_id_if_send_error ;;
       throw se).

(** [void on_packet_id_release(am::packet_id_type)]: the body is empty. *)
Definition on_packet_id_release (packet_id : packet_id_type) : M () :=
  mret ().

(** The three packets that [on_receive] builds after a successful
    connect-acknowledgement. *)
Definition publish1 : packet_variant :=
  v5_publish_packet (mk_publish None "topic1" "payload1" at_most_once).
Definition publish2 (pid : packet_id_type) : packet_variant :=
  v5_publish_packet (mk_publish (Some pid) "topic2" "payload2" at_least_once).
Definition publish3 (pid : packet_id_type) : packet_variant :=
  v5_publish_packet (mk_publish (Some pid) "topic3" "payload3" exactly_once).

(** [void on_receive(am::packet_variant packet)]: [packet.visit] with one
    lambda per packet type and a last one, with an empty body, for every
    other type. *)
Definition on_receive (packet : packet_variant) : M () :=
  cout "on_receive: " ;;
  match packet with
  | v5_connack_packet code =>
      if error_code_bool (make_error_code code)
      then
        cout "" ;;
        socket_Close ;;
        call_notify_closed
      else
        call_send publish1 ;;
        pid ← call_acquire_unique_packet_id ≫= deref ;
        call_send (publish2 pid) ;;
        pid ← call_acquire_unique_packet_id ≫= deref ;
        call_send (publish3 pid)
  | v5_publish_packet p => cout "MQTT PUBLISH recv"
  | v5_puback_packet pid => cout "MQTT PUBACK recv"
  | v5_pubrec_packet pid => cout "MQTT PUBREC recv"
  | v5_pubrel_packet pid => cout "MQTT PUBREL recv"
  | v5_pubcomp_packet pid =>
      cout "MQTT PUBCOMP recv" ;;
      call_send v5_disconnect_packet
  | v5_disconnect_packet | other_packet _ => mret ()
  end.

(** [void on_timer_op(am::timer_op, am::timer_kind,
                      std::optional<std::chrono::milliseconds> ms)]. *)
Definition on_timer_op (op kind : nat) (ms : option Z) : M () :=
  cout "timer" ;;
  match ms with
  | Some _ => cout " ms:"
  | None => mret ()
  end ;;
  cout "".

(** The two callbacks that close the socket, and a run of them in order. *)
Inductive closing_callback :=
| cb_on_error (ec : error_code)
| cb_on_close.

Definition run_closing_callback (cb : closing_callback) : M () :=
  match cb with
  | cb_on_error ec => on_error ec
  | cb_on_close => on_close
  end.

Fixpoint run_closing_callbacks (cbs : list closing_callback) : M () :=
  match cbs with
  | [] => mret ()
  | cb :: rest => run_closing_callback cb ;; run_closing_callbacks rest
  end.

End mqtt_connection.

Arguments mqtt_connection : clear implicits.
Arguments M : clear implicits.

(** ** The identifier pool of the engine *)

(** Modelled from the spec: the state of the protocol engine that the
    adapter's calls act on (the engine itself is not in these headers).
    Packet identifiers are drawn from a finite pool and go back to it when
    released; outgoing packets are queued; the engine is told when the
    connection is closed. *)
Record engine_state := mk_engine_state {
  pid_in_use : gset N;
  send_queue : list packet_variant;
  closed : bool
}.

(** Modelled from the spec: the choice of an identifier to acquire, here
    the first one among [i, i+1, ..., i+n-1] that is not in [used]. *)
Fixpoint first_free (used : gset N) (i : N) (n : nat) : option N :=
  match n with
  | O => None
  | S n' => if decide (i ∈ used) then first_free used (i + 1) n' else Some i
  end.

(** Modelled from the spec: unique packet-identifier acquisition.  An
    identifier that is not in use is taken from the pool 1..65535; the
    result is empty when the pool is exhausted. *)
Definition engine_acquire (e : engine_state) : option packet_id_type * engine_state :=
  match first_free (pid_in_use e) 1 (N.to_nat packet_id_max) with
  | Some pid =>
      (Some pid, {| pid_in_use := {[pid]} ∪ pid_in_use e;
                    send_queue := send_queue e; closed := closed e |})
  | None => (None, e)
  end.

(** Modelled from the spec: explicit packet-identifier release; the
    identifier can be acquired again. *)
Definition engine_release (pid : packet_id_type) (e : engine_state) : engine_state :=
  {| pid_in_use := pid_in_use e ∖ {[pid]};
     send_queue := send_queue e; closed := closed e |}.

(** Modelled from the spec: the adapter calls into the engine to enqueue
    outgoing packets. *)
Definition engine_send (p : packet_variant) (e : engine_state) : engine_state :=
  {| pid_in_use := pid_in_use e;
     send_queue := send_queue e ++ [p]; closed := closed e |}.

(** Modelled from the spec: the "notify closed" signal. *)
Definition engine_notify_closed (e : engine_state) : engine_state :=
  {| pid_in_use := pid_in_use e; send_queue := send_queue e; closed := true |}.

#[export] Instance engine_connection : connection engine_state := {
  acquire_unique_packet_id := engine_acquire;
  release_packet_id := engine_release;
  send := engine_send;
  notify_closed := engine_notify_closed
}.

(** An identifier of the pool that is not in use. *)
Definition pid_free (e : engine_state) (pid : packet_id_type) : Prop :=
  1 ≤ pid ≤ packet_id_max ∧ pid ∉ pid_in_use e.

(** The engine right after construction, and one whose identifiers are all
    in use. *)
Definition engine_fresh : engine_state :=
  {| pid_in_use := ∅; send_queue := []; closed := false |}.

Definition engine_exhausted : engine_state :=
  {| pid_in_use := list_to_set (N.of_nat <$> seq 1 (N.to_nat packet_id_max));
     send_queue := []; closed := false |}.

(** ** A socket and a wire format to run the class on *)

(** A socket whose [Send] returns the next value of a script, and the
    length it was given once the script is over; it counts the calls of
    [Close]. *)
Record script_socket := mk_script_socket {
  send_script : list Z;
  close_calls : nat
}.

#[export] Instance script_socket_api : has_socket_api script_socket := {
  Send s buf len flags timeout :=
    match send_script s with
    | [] => (Z.of_N len, s)
    | r :: rest => (r, {| send_script := rest; close_calls := close_calls s |})
    end;
  Recv s cap flags timeout := (-1, [], s)%Z;
  Close s := (0%Z, {| send_script := send_script s; close_calls := S (close_calls s) |})
}.

(** A layout in segments: a header byte, then one segment per field. *)
Definition sample_buffers (p : packet_variant) : list bytes :=
  match p with
  | v5_publish_packet pk =>
      [[Byte.x30]; String.list_byte_of_string (pub_topic pk);
       String.list_byte_of_string (pub_payload pk)]
  | v5_disconnect_packet => [[Byte.xe0]; [Byte.x00]]
  | _ => [[Byte.x00]]
  end.

Definition sample_connection (script : list Z) (e : engine_state)
  : mqtt_connection script_socket engine_state :=
  mqtt_connection_new {| send_script := script; close_calls := 0 |} e.

(** ** Reading a trace *)

(** The packets handed to the engine's [send], in order. *)
Definition sent_packets (t : list event) : list packet_variant :=
  omap (λ e, match e with ev_send p => Some p | _ => None end) t.

(** The buffers given to the socket's [Send] and their lengths, in order. *)
Definition socket_writes (t : list event) : list (bytes * N) :=
  omap (λ e, match e with ev_Send buf len _ _ => Some (buf, len) | _ => None end) t.

(** The identifiers given to [release_packet_id], in order. *)
Definition released_ids (t : list event) : list packet_id_type :=
  omap (λ e, match e with ev_release_packet_id pid => Some pid | _ => None end) t.

(** The number of calls of the socket's [Close]. *)
Definition close_count (t : list event) : nat :=
  length (omap (λ e, match e with ev_Close => Some () | _ => None end) t).

(** The number of calls of the engine's [notify_closed]. *)
Definition notify_closed_count (t : list event) : nat :=
  length (omap (λ e, match e with ev_notify_closed => Some () | _ => None end) t).

Definition is_publish (p : packet_variant) : bool :=
  match p with v5_publish_packet _ => true | _ => false end.

(** ** Further readings of the two headers *)

(** An [endpoint] has [data()] and [size()] itself, so the template
    constructor accepts one: [endpoint b(a)] for a non-const [a]. *)
#[export] Instance endpoint_data_size : ip.DataSize ip.endpoint := {
  ip.et_data := ip.data;
  ip.et_size := ip.size
}.

(** An engine in which one identifier, [pid], has been acquired and not
    yet released. *)
Definition engine_holding (pid : packet_id_type) : engine_state :=
  {| pid_in_use := {[pid]}; send_queue := []; closed := false |}.

(** The calls of a trace that close: those of the socket's [Close] and of
    the engine's [notify_closed], in order. *)
Definition closing_calls (t : list event) : list event :=
  omap (λ e, match e with
             | ev_Close | ev_notify_closed => Some e
             | _ => None
             end) t.

(** [ssize_t] is a signed 64-bit integer. *)
Definition is_ssize_t (z : Z) : Prop := (- 2 ^ 63 ≤ z < 2 ^ 63)%Z.

(** A trace without its output statements: the calls to the socket and to
    the engine. *)
Definition without_cout (t : list event) : list event :=
  omap (λ e, match e with ev_cout _ => None | _ => Some e end) t.

(** The packets for which [on_receive] has neither the connect-
    acknowledgement lambda nor the publish-complete lambda. *)
Definition only_logged (p : packet_variant) : bool :=
  match p with
  | v5_connack_packet _ | v5_pubcomp_packet _ => false
  | _ => true
  end.

(** A connect-acknowledgement that takes the first branch of its lambda. *)
Definition is_failed_connack (p : packet_variant) : bool :=
  match p with
  | v5_connack_packet code => error_code_bool (make_error_code code)
  | _ => false
  end.

Section mqtt_connection_runs.

Context {SocketType : Type} `{!has_socket_api SocketType}.
Context {Engine : Type} `{!connection Engine}.

(** The engine delivering packets one after the other: [on_receive] is
    called for each, and an exception or undefined behaviour ends the
    run. *)
Fixpoint run_on_receive (packets : list packet_variant)
  : M SocketType Engine () :=
  match packets with
  | [] => mret ()
  | p :: rest => on_receive p ;; run_on_receive rest
  end.

End mqtt_connection_runs.

(** * Properties *)

(** ** Memory *)

Lemma length_zero_bytes n : length (zero_bytes n) = n.
Proof. apply length_replicate. Qed.

Lemma zero_bytes_add n m : zero_bytes (n + m) = zero_bytes n ++ zero_bytes m.
Proof. apply replicate_add. Qed.

Lemma memcpy_Some dest off src n :
  (n ≤ length src)%nat → (off + n ≤ length dest)%nat →
  memcpy dest off src n = Some (list_inserts off (take n src) dest).
Proof. intros Hs Hd. unfold memcpy. by rewrite decide_True. Qed.

Lemma memcpy_length dest off src n d :
  memcpy dest off src n = Some d → length d = length dest.
Proof.
  unfold memcpy. case_decide; [|done].
  intros [= <-]. apply length_inserts.
Qed.

(** Copying a whole segment right after [done], over bytes that are there
    to receive it. *)
Lemma memcpy_after (done_ buf old rest : bytes) :
  length old = length buf →
  memcpy (done_ ++ old ++ rest) (length done_) buf (length buf)
  = Some (done_ ++ buf ++ rest).
Proof.
  intros Hlen. rewrite memcpy_Some.
  - f_equal. rewrite firstn_all.
    rewrite <-(Nat.add_0_r (length done_)).
    rewrite list_inserts_app_r. f_equal.
    by apply list_inserts_0_r.
  - done.
  - rewrite !length_app. lia.
Qed.

(** ** [ip::endpoint] *)

Lemma capacity_eq : ip.capacity = 128%nat.
Proof. reflexivity. Qed.

Lemma copy_length_eq (L : ip.socklen_t) :
  N.to_nat (N.min L (ip.socklen_t_cast ip.sizeof_sockaddr_storage))
  = (N.to_nat L `min` ip.capacity)%nat.
Proof.
  change (ip.socklen_t_cast ip.sizeof_sockaddr_storage) with 128.
  rewrite capacity_eq. lia.
Qed.

(** The constructor from bytes, in closed form: the first
    [min(size, capacity)] bytes of the source, then the zeros of the
    value-initialised member. *)
Lemma endpoint_of_bytes_Some (B : bytes) (L : ip.socklen_t) :
  (N.to_nat L `min` ip.capacity ≤ length B)%nat →
  ip.endpoint_of_bytes B L
  = Some {| ip.d_data := take (N.to_nat L `min` ip.capacity) B
                         ++ zero_bytes (ip.capacity - N.to_nat L `min` ip.capacity);
            ip.d_size := L |}.
Proof.
  intros Hread. unfold ip.endpoint_of_bytes. rewrite copy_length_eq.
  set (n := (N.to_nat L `min` ip.capacity)%nat) in *.
  assert (Hn : (n ≤ ip.capacity)%nat) by (subst n; lia).
  replace (zero_bytes ip.capacity)
    with (zero_bytes n ++ zero_bytes (ip.capacity - n))
    by (rewrite <-zero_bytes_add; f_equal; lia).
  rewrite memcpy_Some.
  - do 2 f_equal.
    apply list_inserts_0_r.
    rewrite length_take, length_zero_bytes. lia.
  - done.
  - rewrite length_app, !length_zero_bytes. lia.
Qed.

Lemma endpoint_of_bytes_storage_length B L e :
  ip.endpoint_of_bytes B L = Some e → length (ip.d_data e) = ip.capacity.
Proof.
  unfold ip.endpoint_of_bytes.
  destruct (memcpy _ _ _ _) as [d|] eqn:Hcopy; [|done].
  intros [= <-]. simpl.
  apply memcpy_length in Hcopy. by rewrite Hcopy, length_zero_bytes.
Qed.




(** C7. For every source [B] and length [L] (with [B] readable for the
    bytes the constructor reads), the constructor from [(B, L)] gives a
    value whose storage is the first [min(L, capacity)] bytes of [B]
    followed by the untouched zero bytes of the member, [capacity] bytes in
    all, and whose reported length is [L] itself, also when [L] is above
    the capacity. *)
Theorem endpoint_of_bytes_truncates (B : bytes) (L : ip.socklen_t)
    (Hread : (N.to_nat L `min` ip.capacity ≤ length B)%nat) :
  ∃ e, ip.endpoint_of_bytes B L = Some e
     ∧ ip.storage e = take (N.to_nat L `min` ip.capacity) B
                      ++ zero_bytes (ip.capacity - N.to_nat L `min` ip.capacity)
     ∧ length (ip.storage e) = ip.capacity
     ∧ ip.size e = L.
Proof.
  eexists. split; [by apply endpoint_of_bytes_Some|].
  split; [done|]. split; [|done].
  eapply endpoint_of_bytes_storage_length. by apply endpoint_of_bytes_Some.
Qed.

Lemma endpoint_of_bytes_truncates_witness :
  (N.to_nat 200 `min` ip.capacity ≤ length (replicate 200 Byte.x2a))%nat
  ∧ ∃ e, ip.endpoint_of_bytes (replicate 200 Byte.x2a) 200 = Some e
       ∧ ip.storage e = take (N.to_nat 200 `min` ip.capacity) (replicate 200 Byte.x2a)
                        ++ zero_bytes (ip.capacity - N.to_nat 200 `min` ip.capacity)
       ∧ length (ip.storage e) = ip.capacity
       ∧ ip.size e = 200.
Proof.
  split.
  - vm_compute. lia.
  - apply (endpoint_of_bytes_truncates (replicate 200 Byte.x2a) 200).
    vm_compute. lia.
Defined.




(** ** Flattening the segments of a packet *)

Lemma size_t_cast_small n : n < 2 ^ 64 → size_t_cast n = n.
Proof. intros Hn. unfold size_t_cast. by apply N.mod_small. Qed.

Lemma static_cast_size_t_of_N (n : N) :
  n < 2 ^ 64 → static_cast_size_t (Z.of_N n) = n.
Proof.
  intros Hn. unfold static_cast_size_t.
  rewrite Z.mod_small by lia. apply N2Z.id.
Qed.

Lemma static_cast_size_t_below (z : Z) (n : N) :
  n < 2 ^ 64 → (0 ≤ z < Z.of_N n)%Z → static_cast_size_t z ≠ n.
Proof.
  intros Hn Hz. unfold static_cast_size_t.
  rewrite Z.mod_small by lia. lia.
Qed.

Lemma length_concat_segments (buffers : list bytes) :
  N.of_nat (length (concat buffers)) = segments_total buffers.
Proof.
  unfold segments_total. f_equal.
  induction buffers as [|buf rest IH]; simpl; [done|].
  by rewrite length_app, IH.
Qed.

(** The sum of the first loop does not wrap when the segments total less
    than [2^64] bytes. *)
Lemma fold_size_t_add (buffers : list bytes) (acc : size_t) :
  acc + N.of_nat (length (concat buffers)) < 2 ^ 64 →
  fold_left (λ total_size buf, size_t_add total_size (buf_size buf)) buffers acc
  = acc + N.of_nat (length (concat buffers)).
Proof.
  revert acc. induction buffers as [|buf rest IH]; intros acc Hfit; simpl.
  - lia.
  - simpl in Hfit. rewrite length_app in Hfit. unfold buf_size.
    unfold size_t_add at 2. rewrite size_t_cast_small by lia.
    rewrite IH by lia. rewrite length_app. lia.
Qed.

Lemma total_size_of_segments (buffers : list bytes) :
  segments_total buffers < 2 ^ 64 →
  total_size_of buffers = segments_total buffers.
Proof.
  rewrite <-length_concat_segments. intros Hfit.
  unfold total_size_of. by rewrite fold_size_t_add.
Qed.

(** The second loop, started after [done_] on zeroed room for all the
    segments, leaves the segments there, one after the other. *)
Lemma copy_buffers_concat (buffers : list bytes) (done_ : bytes) :
  copy_buffers buffers (done_ ++ zero_bytes (length (concat buffers))) (length done_)
  = Some (done_ ++ concat buffers).
Proof.
  revert done_. induction buffers as [|buf rest IH]; intros done_; simpl.
  - done.
  - unfold buf_size. rewrite Nat2N.id.
    rewrite length_app, zero_bytes_add.
    rewrite memcpy_after by apply length_zero_bytes.
    rewrite <-length_app, (assoc_L (++) done_ buf).
    rewrite IH. by rewrite <-(assoc_L (++)).
Qed.

Lemma copy_buffers_flat (buffers : list bytes) :
  segments_total buffers < 2 ^ 64 →
  copy_buffers buffers (zero_bytes (N.to_nat (total_size_of buffers))) 0
  = Some (concat buffers).
Proof.
  intros Hfit. rewrite total_size_of_segments by done.
  rewrite <-length_concat_segments, Nat2N.id.
  apply (copy_buffers_concat buffers []).
Qed.

(** ** [mqtt_connection]: the outgoing path *)

Section mqtt_connection_facts.

Context {SocketType : Type} `{!has_socket_api SocketType}.
Context {Engine : Type} `{!connection Engine}.
Variable const_buffer_sequence : packet_variant → list bytes.

Implicit Types c : mqtt_connection SocketType Engine.

(** The segments of a packet one after the other, and their total size. *)
Let flat (packet : packet_variant) : bytes :=
  concat (const_buffer_sequence packet).

Let wire_size (packet : packet_variant) : N :=
  segments_total (const_buffer_sequence packet).

(** What [socket_.Send] returns when [on_send] calls it for [packet]. *)
Let send_result c (packet : packet_variant) : Z :=
  (Send (socket_ c) (flat packet) (wire_size packet) 0 (-1)%Z).1.

Let socket_after_send c (packet : packet_variant) : SocketType :=
  (Send (socket_ c) (flat packet) (wire_size packet) 0 (-1)%Z).2.

(** [on_send], once the two loops are replaced by what they compute. *)
Lemma on_send_eq packet r c :
  wire_size packet < 2 ^ 64 →
  on_send const_buffer_sequence packet r c
  = let c1 := {| socket_ := socket_after_send c packet; engine_ := engine_ c;
                 trace := trace c ++ [ev_cout "send:";
                                      ev_Send (flat packet) (wire_size packet) 0 (-1)] |} in
    if (send_result c packet <? 0)%Z
       || negb (static_cast_size_t (send_result c packet) =? wire_size packet)
    then
      (release_if_present r ;; release_if_present r ;;
       throw (system_error "send failed")) c1
    else Returns () c1.
Proof.
  intros Hfit. unfold send_result, socket_after_send, wire_size, flat in *.
  unfold on_send, try_catch, cout, record, socket_Send.
  unfold mbind, M_bind at 1. simpl.
  rewrite copy_buffers_flat by done.
  rewrite total_size_of_segments by done.
  unfold mbind, M_bind, mret, M_ret. simpl.
  rewrite length_concat_segments.
  destruct (Send _ _ _ _ _) as [sent s]. simpl.
  rewrite <-(assoc_L (++)). simpl.
  destruct ((sent <? 0)%Z || _); [|done].
  destruct r as [pid|]; simpl; done.
Qed.

(** The test of [on_send] on the value returned by [Send]. *)
Lemma send_failed_true (sent : Z) (total : N) :
  total < 2 ^ 64 → (sent < 0 ∨ sent < Z.of_N total)%Z →
  (sent <? 0)%Z || negb (static_cast_size_t sent =? total) = true.
Proof.
  intros Hfit Hsent. destruct (Z.ltb_spec sent 0) as [|Hpos]; [done|]. simpl.
  apply negb_true_iff, N.eqb_neq, static_cast_size_t_below; lia.
Qed.

Lemma send_failed_false (total : N) :
  total < 2 ^ 64 →
  (Z.of_N total <? 0)%Z || negb (static_cast_size_t (Z.of_N total) =? total) = false.
Proof.
  intros Hfit. rewrite static_cast_size_t_of_N, N.eqb_refl by done.
  destruct (Z.ltb_spec (Z.of_N total) 0); [lia|done].
Qed.

Lemma socket_writes_app t1 t2 :
  socket_writes (t1 ++ t2) = socket_writes t1 ++ socket_writes t2.
Proof. apply omap_app. Qed.

Lemma released_ids_app t1 t2 :
  released_ids (t1 ++ t2) = released_ids t1 ++ released_ids t2.
Proof. apply omap_app. Qed.

Lemma sent_packets_app t1 t2 :
  sent_packets (t1 ++ t2) = sent_packets t1 ++ sent_packets t2.
Proof. apply omap_app. Qed.

(** C1. For every outgoing packet whose segments total [S] bytes ([S]
    being a [std::size_t]), [on_send] calls the socket's [Send] exactly
    once, with the length [S] and a buffer of [S] bytes that is the
    concatenation of the segments in order: the trace gains this one
    [Send], and the socket the object holds afterwards is the one that
    this call of [Send] left.  This holds whatever [Send] returns. *)
Theorem on_send_single_write packet r c
    (Hfit : segments_total (const_buffer_sequence packet) < 2 ^ 64) :
  socket_writes (trace (final_state (on_send const_buffer_sequence packet r c)))
  = socket_writes (trace c)
    ++ [(concat (const_buffer_sequence packet),
         segments_total (const_buffer_sequence packet))]
  ∧ socket_ (final_state (on_send const_buffer_sequence packet r c))
    = (Send (socket_ c) (concat (const_buffer_sequence packet))
            (segments_total (const_buffer_sequence packet)) 0 (-1)%Z).2
  ∧ N.of_nat (length (concat (const_buffer_sequence packet)))
    = segments_total (const_buffer_sequence packet).
Proof.
  split; [|split; [|apply length_concat_segments]];
    rewrite on_send_eq by done; cbv zeta.
  - destruct (_ || _); [|simpl; by rewrite socket_writes_app].
    destruct r as [pid|]; simpl;
      rewrite ?socket_writes_app; simpl; by rewrite ?app_nil_r.
  - destruct (_ || _); [|done]. by destruct r as [pid|].
Qed.

(** C2. Take a call of [on_send] for a packet whose segments total [S]
    bytes.  When [Send] returns a negative value or a count below [S], the
    call leaves by an exception, and an identifier that came with the
    packet has been given to [release_packet_id] by then: the call is in
    the trace and the engine the object holds is the one
    [release_packet_id] left (with no identifier, the engine is as it
    was).  When [Send] returns [S], the call returns normally,
    [release_packet_id] is not called and the engine is left as it was. *)
Theorem on_send_release_on_failure packet r c
    (Hfit : segments_total (const_buffer_sequence packet) < 2 ^ 64) :
  let S := segments_total (const_buffer_sequence packet) in
  let sent := (Send (socket_ c) (concat (const_buffer_sequence packet)) S 0 (-1)%Z).1 in
  let o := on_send const_buffer_sequence packet r c in
  ((sent < 0 ∨ sent < Z.of_N S)%Z →
     (∃ e c', o = Throws e c')
     ∧ (∃ t, trace (final_state o) = trace c ++ t
           ∧ ∀ pid, r = Some pid → pid ∈ released_ids t)
     ∧ engine_ (final_state o)
       = match r with
         | Some pid => release_packet_id pid (release_packet_id pid (engine_ c))
         | None => engine_ c
         end)
  ∧ (sent = Z.of_N S →
     (∃ c', o = Returns () c')
     ∧ released_ids (trace (final_state o)) = released_ids (trace c)
     ∧ engine_ (final_state o) = engine_ c).
Proof.
  intros S sent o. subst o. rewrite on_send_eq by done. cbv zeta.
  fold S. change (send_result c packet) with sent. split.
  - intros Hsent. rewrite send_failed_true by done.
    destruct r as [pid|]; simpl.
    + split; [by eexists _, _|]. split; [|done].
      rewrite <-!(assoc_L (++)). eexists. split; [done|].
      intros ? [= <-]. simpl. by left.
    + split; [by eexists _, _|]. split; [|done].
      eexists. split; [done|]. by intros ? [=].
  - intros ->. rewrite send_failed_false by done. simpl.
    split; [by eexists|]. split; [|done].
    rewrite released_ids_app. simpl. by rewrite app_nil_r.
Qed.

(** C10. When [Send] returns a negative value or a count below the total
    size and an identifier [pid] came with the packet, [on_send] calls
    [release_packet_id pid] exactly twice, once in the failure branch and
    once in the handler, and then leaves by the exception; it makes no
    other call after [Send]. *)
Theorem on_send_releases_twice packet pid c
    (Hfit : segments_total (const_buffer_sequence packet) < 2 ^ 64)
    (Hsent : let S := segments_total (const_buffer_sequence packet) in
             let sent := (Send (socket_ c) (concat (const_buffer_sequence packet))
                               S 0 (-1)%Z).1 in
             (sent < 0 ∨ sent < Z.of_N S)%Z) :
  ∃ c', on_send const_buffer_sequence packet (Some pid) c
        = Throws (system_error "send failed") c'
      ∧ trace c'
        = trace c ++ [ev_cout "send:";
                      ev_Send (concat (const_buffer_sequence packet))
                              (segments_total (const_buffer_sequence packet)) 0 (-1);
                      ev_release_packet_id pid;
                      ev_release_packet_id pid]
      ∧ released_ids (trace c') = released_ids (trace c) ++ [pid; pid]
      ∧ engine_ c' = release_packet_id pid (release_packet_id pid (engine_ c)).
Proof.
  cbv zeta in Hsent. rewrite on_send_eq by done. cbv zeta.
  change (send_result c packet) with
    (Send (socket_ c) (concat (const_buffer_sequence packet))
          (segments_total (const_buffer_sequence packet)) 0 (-1)%Z).1.
  rewrite send_failed_true by done. simpl.
  eexists. split; [done|]. simpl.
  rewrite <-!(assoc_L (++)). simpl. split; [done|]. split; [|done].
  rewrite released_ids_app. done.
Qed.

(** ** [mqtt_connection]: closing *)

Lemma close_count_app t1 t2 :
  close_count (t1 ++ t2) = (close_count t1 + close_count t2)%nat.
Proof. unfold close_count. by rewrite omap_app, length_app. Qed.

Lemma notify_closed_count_app t1 t2 :
  notify_closed_count (t1 ++ t2)
  = (notify_closed_count t1 + notify_closed_count t2)%nat.
Proof. unfold notify_closed_count. by rewrite omap_app, length_app. Qed.

(** Either closing callback: one line of output, [socket_.Close()], then
    [notify_closed()], with no test before them. *)
Lemma run_closing_callback_eq cb c :
  run_closing_callback cb c
  = Returns ()
      {| socket_ := (Close (socket_ c)).2;
         engine_ := notify_closed (engine_ c);
         trace := trace c ++ [ev_cout (match cb with
                                       | cb_on_error _ => "on_error: "
                                       | cb_on_close => "on_close"
                                       end);
                              ev_Close; ev_notify_closed] |}.
Proof.
  destruct cb; unfold run_closing_callback, on_error, on_close;
    unfold mbind, M_bind, cout, record, socket_Close, call_notify_closed; simpl;
    destruct (Close (socket_ c)) as [status s]; simpl;
    by rewrite <-!(assoc_L (++)).
Qed.

(** C4, amended. [on_error] and [on_close] keep no record of an earlier
    closure: each invocation calls the socket's [Close] once and then
    [notify_closed] once, whatever happened before.  So a run of [n]
    invocations returns normally after exactly [n] calls of [Close] and
    [n] of [notify_closed], made in the order [Close], [notify_closed],
    [Close], [notify_closed], ...; the socket has then been through [n]
    calls of [Close] and the engine through [n] of [notify_closed]. *)
Theorem closing_callbacks_close_each_time (cbs : list closing_callback) c :
  ∃ c', run_closing_callbacks cbs c = Returns () c'
      ∧ close_count (trace c') = (close_count (trace c) + length cbs)%nat
      ∧ notify_closed_count (trace c')
        = (notify_closed_count (trace c) + length cbs)%nat
      ∧ without_cout (trace c')
        = without_cout (trace c)
          ++ concat (replicate (length cbs) [ev_Close; ev_notify_closed])
      ∧ socket_ c' = Nat.iter (length cbs) (λ s, (Close s).2) (socket_ c)
      ∧ engine_ c' = Nat.iter (length cbs) notify_closed (engine_ c).
Proof.
  revert c. induction cbs as [|cb rest IH]; intros c.
  - eexists. split; [done|]. cbn. rewrite app_nil_r. repeat split; lia.
  - cbn [run_closing_callbacks]. unfold mbind, M_bind.
    rewrite run_closing_callback_eq.
    edestruct IH as (c' & -> & Hclose & Hnotify & Htrace & Hsocket & Hengine).
    eexists. split; [done|].
    rewrite Hclose, Hnotify, Htrace, Hsocket, Hengine. cbn [length].
    rewrite !Nat.iter_succ_r. cbn [socket_ engine_ trace replicate concat].
    rewrite close_count_app, notify_closed_count_app.
    unfold without_cout. rewrite omap_app.
    unfold close_count, notify_closed_count. cbn.
    rewrite <-(assoc_L (++)). repeat split; lia.
Qed.

(** ** [mqtt_connection]: the incoming path *)

(** C5. For every connect-acknowledgement whose reason code is a failure,
    [on_receive] writes its two lines of output, calls the socket's
    [Close], calls [notify_closed], and returns; nothing is handed to the
    engine's [send] and no identifier is acquired. *)
Theorem on_receive_connack_failure (code : connect_reason_code) c
    (Hcode : code ≠ 0) :
  ∃ c', on_receive (v5_connack_packet code) c = Returns () c'
      ∧ trace c' = trace c ++ [ev_cout "on_receive: "; ev_cout "";
                               ev_Close; ev_notify_closed]
      ∧ socket_ c' = (Close (socket_ c)).2
      ∧ engine_ c' = notify_closed (engine_ c)
      ∧ sent_packets (trace c') = sent_packets (trace c).
Proof.
  unfold on_receive. unfold mbind at 1, M_bind at 1. simpl.
  assert (error_code_bool (make_error_code code) = true) as ->.
  { unfold error_code_bool, make_error_code.
    apply negb_true_iff, Z.eqb_neq. lia. }
  unfold mbind, M_bind, cout, record, socket_Close, call_notify_closed. simpl.
  destruct (Close (socket_ c)) as [status s]. simpl.
  eexists. split; [done|]. simpl. rewrite <-!(assoc_L (++)). simpl.
  split; [done|]. split; [done|]. split; [done|].
  rewrite sent_packets_app. simpl. by rewrite app_nil_r.
Qed.


(** The branch of [on_receive] for a successful connect-acknowledgement,
    step by step: the result of each acquisition is dereferenced as it
    comes. *)
Lemma on_receive_connack_success_eq c :
  on_receive (v5_connack_packet 0) c
  = let e1 := send publish1 (engine_ c) in
    let t1 := trace c ++ [ev_cout "on_receive: "; ev_send publish1] in
    match acquire_unique_packet_id e1 with
    | (None, e2) =>
        Undefined {| socket_ := socket_ c; engine_ := e2;
                     trace := t1 ++ [ev_acquire_unique_packet_id None] |}
    | (Some pid2, e2) =>
        let e3 := send (publish2 pid2) e2 in
        let t3 := t1 ++ [ev_acquire_unique_packet_id (Some pid2);
                         ev_send (publish2 pid2)] in
        match acquire_unique_packet_id e3 with
        | (None, e4) =>
            Undefined {| socket_ := socket_ c; engine_ := e4;
                         trace := t3 ++ [ev_acquire_unique_packet_id None] |}
        | (Some pid3, e4) =>
            Returns ()
              {| socket_ := socket_ c; engine_ := send (publish3 pid3) e4;
                 trace := t3 ++ [ev_acquire_unique_packet_id (Some pid3);
                                 ev_send (publish3 pid3)] |}
        end
    end.
Proof.
  unfold on_receive, mbind, M_bind, cout, record, call_send,
    call_acquire_unique_packet_id, deref, undefined_behaviour, mret, M_ret.
  simpl.
  destruct (acquire_unique_packet_id (send publish1 (engine_ c)))
    as [[pid2|] e2]; simpl; rewrite <-!(assoc_L (++)); simpl; [|done].
  destruct (acquire_unique_packet_id (send (publish2 pid2) e2))
    as [[pid3|] e4]; simpl; rewrite <-!(assoc_L (++)); simpl; done.
Qed.

(** C9, amended. After a successful connect-acknowledgement the result of
    each identifier acquisition is dereferenced without a test: there is
    no guard and no error branch.  When the first or the second
    acquisition yields an empty result, the dereference of that empty
    result is reached, which is undefined behaviour, and the last call
    made before it is the acquisition itself; nothing is stated about what
    follows.  The handling is free of undefined behaviour only when both
    acquisitions yield an identifier, and it then returns after its three
    publishes. *)
Theorem on_receive_connack_success_unguarded c :
  let o := on_receive (v5_connack_packet 0) c in
  let first := acquire_unique_packet_id (send publish1 (engine_ c)) in
  match first.1 with
  | None =>
      ∃ c', o = Undefined c'
          ∧ last (trace c') = Some (ev_acquire_unique_packet_id None)
  | Some pid2 =>
      let second := acquire_unique_packet_id (send (publish2 pid2) first.2) in
      match second.1 with
      | None =>
          ∃ c', o = Undefined c'
              ∧ last (trace c') = Some (ev_acquire_unique_packet_id None)
      | Some pid3 =>
          ∃ c', o = Returns () c'
              ∧ sent_packets (trace c')
                = sent_packets (trace c) ++ [publish1; publish2 pid2; publish3 pid3]
      end
  end.
Proof.
  cbv zeta. rewrite on_receive_connack_success_eq. cbv zeta.
  destruct (acquire_unique_packet_id (send publish1 (engine_ c)))
    as [[pid2|] e2]; simpl.
  - destruct (acquire_unique_packet_id (send (publish2 pid2) e2))
      as [[pid3|] e4]; simpl; (eexists; split; [done|]); simpl.
    + rewrite <-!(assoc_L (++)), sent_packets_app. done.
    + apply last_snoc.
  - eexists. split; [done|]. simpl. apply last_snoc.
Qed.

End mqtt_connection_facts.

(** ** The identifier pool *)

Lemma first_free_Some used i n pid :
  first_free used i n = Some pid →
  i ≤ pid < i + N.of_nat n ∧ pid ∉ used.
Proof.
  revert i. induction n as [|n IH]; intros i; cbn [first_free]; [done|].
  rewrite Nat2N.inj_succ. case_decide as Hused.
  - intros Hfree. apply IH in Hfree as [Hrange Hfree]. split; [lia|done].
  - intros [= <-]. split; [lia|done].
Qed.

Lemma first_free_None used i n :
  first_free used i n = None ↔ ∀ pid, i ≤ pid < i + N.of_nat n → pid ∈ used.
Proof.
  revert i. induction n as [|n IH]; intros i; cbn [first_free].
  - split; [|done]. intros _ pid Hpid. simpl in Hpid. lia.
  - rewrite Nat2N.inj_succ. case_decide as Hused.
    + rewrite IH. split.
      * intros Hall pid Hpid.
        destruct (decide (pid = i)) as [->|Hne]; [done|]. apply Hall. lia.
      * intros Hall pid Hpid. apply Hall. lia.
    + split; [done|]. intros Hall. destruct Hused. apply Hall. lia.
Qed.

(** Acquisition succeeds as soon as one identifier is free, and yields a
    free identifier, which is in use from then on. *)
Lemma engine_acquire_free (e : engine_state) (a : packet_id_type) :
  pid_free e a →
  ∃ pid, pid_free e pid
       ∧ engine_acquire e
         = (Some pid, {| pid_in_use := {[pid]} ∪ pid_in_use e;
                         send_queue := send_queue e; closed := closed e |}).
Proof.
  intros [Hrange Hfree]. unfold engine_acquire.
  destruct (first_free _ _ _) as [pid|] eqn:Hfirst.
  - exists pid. split; [|done].
    apply first_free_Some in Hfirst. unfold pid_free.
    rewrite N2Nat.id in Hfirst. unfold packet_id_max in *. split; [lia|tauto].
  - exfalso. apply Hfree.
    eapply first_free_None; [exact Hfirst|].
    rewrite N2Nat.id. unfold packet_id_max in *. lia.
Qed.

Lemma engine_acquire_None (e : engine_state) :
  (∀ pid, 1 ≤ pid ≤ packet_id_max → pid ∈ pid_in_use e) →
  engine_acquire e = (None, e).
Proof.
  intros Hall. unfold engine_acquire.
  assert (first_free (pid_in_use e) 1 (N.to_nat packet_id_max) = None) as ->; [|done].
  apply first_free_None. intros pid Hpid. apply Hall.
  rewrite N2Nat.id in Hpid. unfold packet_id_max in *. lia.
Qed.

Lemma engine_exhausted_in_use (pid : packet_id_type) :
  1 ≤ pid ≤ packet_id_max → pid ∈ pid_in_use engine_exhausted.
Proof.
  intros Hpid. unfold engine_exhausted. cbn [pid_in_use].
  apply elem_of_list_to_set, list_elem_of_fmap.
  exists (N.to_nat pid). split; [by rewrite N2Nat.id|].
  apply elem_of_seq. unfold packet_id_max in *. lia.
Qed.

Lemma engine_exhausted_acquire (p : packet_variant) :
  acquire_unique_packet_id (send p engine_exhausted)
  = (None, send p engine_exhausted).
Proof.
  apply engine_acquire_None. intros pid Hpid.
  by apply engine_exhausted_in_use.
Qed.

Lemma not_elem_of_taken (pid x : packet_id_type) (used : gset N) :
  x ∉ {[pid]} ∪ used ↔ x ≠ pid ∧ x ∉ used.
Proof. by rewrite not_elem_of_union, not_elem_of_singleton. Qed.

(** Queueing a packet leaves the pool as it is. *)
Lemma pid_free_send (p : packet_variant) (e : engine_state) (pid : packet_id_type) :
  pid_free (send p e) pid ↔ pid_free e pid.
Proof. done. Qed.

(** C3, amended. For every successful connect-acknowledgement received
    while at least two identifiers of the engine's pool are free,
    [on_receive] hands exactly three publishes to the engine's [send], in
    this order: [publish1] at [at_most_once] with no identifier,
    [publish2] at [at_least_once] with an identifier acquired just before
    it, [publish3] at [exactly_once] with an identifier acquired just
    before it; both identifiers were free, they differ, both are in use
    afterwards, and the three publishes are the packets the engine has
    queued since. *)
Theorem on_receive_connack_success_publishes
    {SocketType : Type} `{!has_socket_api SocketType}
    (c : mqtt_connection SocketType engine_state) (a b : packet_id_type)
    (Ha : pid_free (engine_ c) a) (Hb : pid_free (engine_ c) b) (Hab : a ≠ b) :
  ∃ pid2 pid3 c',
    on_receive (v5_connack_packet 0) c = Returns () c'
    ∧ trace c'
      = trace c ++ [ev_cout "on_receive: ";
                    ev_send publish1;
                    ev_acquire_unique_packet_id (Some pid2);
                    ev_send (publish2 pid2);
                    ev_acquire_unique_packet_id (Some pid3);
                    ev_send (publish3 pid3)]
    ∧ sent_packets (trace c')
      = sent_packets (trace c) ++ [publish1; publish2 pid2; publish3 pid3]
    ∧ pid_free (engine_ c) pid2
    ∧ pid_free (engine_ c) pid3
    ∧ pid2 ≠ pid3
    ∧ pid_in_use (engine_ c') = {[pid2; pid3]} ∪ pid_in_use (engine_ c)
    ∧ send_queue (engine_ c')
      = send_queue (engine_ c) ++ [publish1; publish2 pid2; publish3 pid3].
Proof.
  rewrite on_receive_connack_success_eq. cbv zeta.
  destruct (engine_acquire_free (send publish1 (engine_ c)) a)
    as (pid2 & Hpid2 & Hacq2); [by apply pid_free_send|].
  change (acquire_unique_packet_id (send publish1 (engine_ c)))
    with (engine_acquire (send publish1 (engine_ c))).
  rewrite Hacq2.
  set (e2 := {| pid_in_use := _ |}).
  (* one of [a], [b] is still free after [pid2] has been taken *)
  assert (∃ x, pid_free (send (publish2 pid2) e2) x) as [x Hx].
  { destruct (decide (a = pid2)) as [->|Hne].
    - exists b. destruct Hb as [Hrange Hfree]. split; [done|].
      subst e2. simpl. apply not_elem_of_taken. by split; [congruence|].
    - exists a. destruct Ha as [Hrange Hfree]. split; [done|].
      subst e2. simpl. by apply not_elem_of_taken. }
  destruct (engine_acquire_free _ x Hx) as (pid3 & Hpid3 & Hacq3).
  change (acquire_unique_packet_id (send (publish2 pid2) e2))
    with (engine_acquire (send (publish2 pid2) e2)).
  rewrite Hacq3.
  exists pid2, pid3. eexists. split; [done|]. simpl.
  rewrite <-!(assoc_L (++)). simpl.
  destruct Hpid2 as [Hrange2 Hfree2]. destruct Hpid3 as [Hrange3 Hfree3].
  simpl in Hfree2, Hfree3. apply not_elem_of_taken in Hfree3 as [Hne Hfree3].
  split; [done|]. split; [by rewrite sent_packets_app|].
  split; [done|]. split; [done|]. split; [congruence|]. split.
  - apply set_eq. intros y.
    rewrite !elem_of_union, !elem_of_singleton. tauto.
  - done.
Qed.

(** ** The theorems at work on a scripted socket *)

Lemma on_send_single_write_witness :
  segments_total (sample_buffers (publish2 7)) < 2 ^ 64
  ∧ socket_writes
      (trace (final_state (on_send sample_buffers (publish2 7) (Some 7)
                             (sample_connection [15%Z; 0%Z] engine_fresh))))
    = socket_writes (trace (sample_connection [15%Z; 0%Z] engine_fresh))
      ++ [(concat (sample_buffers (publish2 7)),
           segments_total (sample_buffers (publish2 7)))]
  ∧ socket_ (final_state (on_send sample_buffers (publish2 7) (Some 7)
                            (sample_connection [15%Z; 0%Z] engine_fresh)))
    = (Send (socket_ (sample_connection [15%Z; 0%Z] engine_fresh))
            (concat (sample_buffers (publish2 7)))
            (segments_total (sample_buffers (publish2 7))) 0 (-1)%Z).2
  ∧ N.of_nat (length (concat (sample_buffers (publish2 7))))
    = segments_total (sample_buffers (publish2 7)).
Proof.
  split; [done|].
  apply (on_send_single_write sample_buffers (publish2 7) (Some 7)
           (sample_connection [15%Z; 0%Z] engine_fresh)).
  done.
Defined.

Lemma on_send_release_on_failure_witness :
  segments_total (sample_buffers (publish2 7)) < 2 ^ 64
  ∧ ((∃ e c', on_send sample_buffers (publish2 7) (Some 7)
                (sample_connection [(-1)%Z] (engine_holding 7)) = Throws e c')
     ∧ (∃ t, trace (final_state (on_send sample_buffers (publish2 7) (Some 7)
                                   (sample_connection [(-1)%Z] (engine_holding 7))))
             = trace (sample_connection [(-1)%Z] (engine_holding 7)) ++ t
           ∧ ∀ pid, Some 7 = Some pid → pid ∈ released_ids t)
     ∧ engine_ (final_state (on_send sample_buffers (publish2 7) (Some 7)
                               (sample_connection [(-1)%Z] (engine_holding 7))))
       = release_packet_id 7
           (release_packet_id 7
              (engine_ (sample_connection [(-1)%Z] (engine_holding 7)))))
  ∧ ((∃ c', on_send sample_buffers (publish2 7) (Some 7)
              (sample_connection [15%Z] engine_fresh) = Returns () c')
     ∧ released_ids
         (trace (final_state (on_send sample_buffers (publish2 7) (Some 7)
                                (sample_connection [15%Z] engine_fresh))))
       = released_ids (trace (sample_connection [15%Z] engine_fresh))
     ∧ engine_ (final_state (on_send sample_buffers (publish2 7) (Some 7)
                               (sample_connection [15%Z] engine_fresh)))
       = engine_ (sample_connection [15%Z] engine_fresh)).
Proof.
  assert (Hfit : segments_total (sample_buffers (publish2 7)) < 2 ^ 64) by done.
  split; [exact Hfit|]. split.
  - apply (on_send_release_on_failure sample_buffers (publish2 7) (Some 7)
             (sample_connection [(-1)%Z] (engine_holding 7)) Hfit).
    left. simpl. lia.
  - apply (on_send_release_on_failure sample_buffers (publish2 7) (Some 7)
             (sample_connection [15%Z] engine_fresh) Hfit).
    reflexivity.
Defined.

Lemma on_send_releases_twice_witness :
  segments_total (sample_buffers (publish2 7)) < 2 ^ 64
  ∧ (3 < Z.of_N (segments_total (sample_buffers (publish2 7%N))))%Z
  ∧ ∃ c', on_send sample_buffers (publish2 7) (Some 7)
            (sample_connection [3%Z] engine_fresh)
          = Throws (system_error "send failed") c'
        ∧ trace c'
          = trace (sample_connection [3%Z] engine_fresh)
            ++ [ev_cout "send:";
                ev_Send (concat (sample_buffers (publish2 7)))
                        (segments_total (sample_buffers (publish2 7))) 0 (-1);
                ev_release_packet_id 7;
                ev_release_packet_id 7]
        ∧ released_ids (trace c')
          = released_ids (trace (sample_connection [3%Z] engine_fresh)) ++ [7; 7]
        ∧ engine_ c'
          = release_packet_id 7
              (release_packet_id 7 (engine_ (sample_connection [3%Z] engine_fresh))).
Proof.
  split; [done|]. split; [simpl; lia|].
  apply (on_send_releases_twice sample_buffers (publish2 7) 7
           (sample_connection [3%Z] engine_fresh)).
  - done.
  - right. simpl. lia.
Defined.

Lemma on_receive_connack_failure_witness :
  (135 : connect_reason_code) ≠ 0
  ∧ ∃ c', on_receive (v5_connack_packet 135) (sample_connection [] engine_fresh)
          = Returns () c'
        ∧ trace c' = trace (sample_connection [] engine_fresh)
                     ++ [ev_cout "on_receive: "; ev_cout ""; ev_Close; ev_notify_closed]
        ∧ socket_ c' = (Close (socket_ (sample_connection [] engine_fresh))).2
        ∧ engine_ c' = notify_closed (engine_ (sample_connection [] engine_fresh))
        ∧ sent_packets (trace c')
          = sent_packets (trace (sample_connection [] engine_fresh)).
Proof.
  split; [done|].
  apply (on_receive_connack_failure 135 (sample_connection [] engine_fresh)).
  done.
Defined.

Lemma on_receive_connack_success_publishes_witness :
  pid_free engine_fresh 1 ∧ pid_free engine_fresh 2 ∧ (1 : N) ≠ 2
  ∧ ∃ pid2 pid3 c',
      on_receive (v5_connack_packet 0) (sample_connection [] engine_fresh)
      = Returns () c'
      ∧ trace c'
        = trace (sample_connection [] engine_fresh)
          ++ [ev_cout "on_receive: ";
              ev_send publish1;
              ev_acquire_unique_packet_id (Some pid2);
              ev_send (publish2 pid2);
              ev_acquire_unique_packet_id (Some pid3);
              ev_send (publish3 pid3)]
      ∧ sent_packets (trace c')
        = sent_packets (trace (sample_connection [] engine_fresh))
          ++ [publish1; publish2 pid2; publish3 pid3]
      ∧ pid_free (engine_ (sample_connection [] engine_fresh)) pid2
      ∧ pid_free (engine_ (sample_connection [] engine_fresh)) pid3
      ∧ pid2 ≠ pid3
      ∧ pid_in_use (engine_ c')
        = {[pid2; pid3]} ∪ pid_in_use (engine_ (sample_connection [] engine_fresh))
      ∧ send_queue (engine_ c')
        = send_queue (engine_ (sample_connection [] engine_fresh))
          ++ [publish1; publish2 pid2; publish3 pid3].
Proof.
  assert (Ha : pid_free engine_fresh 1).
  { split; [unfold packet_id_max; lia|apply not_elem_of_empty]. }
  assert (Hb : pid_free engine_fresh 2).
  { split; [unfold packet_id_max; lia|apply not_elem_of_empty]. }
  assert (Hab : (1 : N) ≠ 2) by done.
  split; [exact Ha|]. split; [exact Hb|]. split; [exact Hab|].
  exact (on_receive_connack_success_publishes
           (sample_connection [] engine_fresh) 1 2 Ha Hb Hab).
Defined.

(** ** Where the claims fail *)

(** C3, as the claim has it, fails: with every identifier of the pool in
    use, a successful connect-acknowledgement leads to one publish only,
    after which the empty result of the acquisition is dereferenced. *)
Lemma on_receive_connack_success_exhausted :
  (∃ c', on_receive (v5_connack_packet 0) (sample_connection [] engine_exhausted)
         = Undefined c'
       ∧ sent_packets (trace c') = [publish1])
  ∧ ¬ ∃ c', on_receive (v5_connack_packet 0) (sample_connection [] engine_exhausted)
            = Returns () c'.
Proof.
  rewrite on_receive_connack_success_eq. cbv zeta.
  change (engine_ (sample_connection [] engine_exhausted)) with engine_exhausted.
  rewrite engine_exhausted_acquire. split.
  - eexists. split; reflexivity.
  - intros [c' Hreturns]. discriminate Hreturns.
Qed.

(** C4, as the claim has it, fails: [on_error] followed by [on_close]
    calls the socket's [Close] twice. *)
Lemma on_error_then_on_close_closes_twice :
  ∃ c', run_closing_callbacks [cb_on_error 104%Z; cb_on_close]
          (sample_connection [] engine_fresh)
        = Returns () c'
      ∧ trace c' = [ev_cout "on_error: "; ev_Close; ev_notify_closed;
                    ev_cout "on_close"; ev_Close; ev_notify_closed]
      ∧ close_count (trace c') = 2%nat
      ∧ close_calls (socket_ c') = 2%nat
      ∧ ¬ (close_count (trace c') ≤ 1)%nat.
Proof.
  eexists. split; [reflexivity|]. simpl.
  split; [done|]. split; [done|]. split; [done|].
  unfold close_count. simpl. lia.
Qed.

(** C9, as the claim has it, fails: with every identifier of the pool in
    use the acquisition yields an empty result, and [on_receive]
    dereferences it all the same. *)
Lemma on_receive_dereferences_empty_result :
  (acquire_unique_packet_id (send publish1 engine_exhausted)).1 = None
  ∧ on_receive (v5_connack_packet 0) (sample_connection [] engine_exhausted)
    = Undefined
        {| socket_ := {| send_script := []; close_calls := 0 |};
           engine_ := send publish1 engine_exhausted;
           trace := [ev_cout "on_receive: "; ev_send publish1;
                     ev_acquire_unique_packet_id None] |}.
Proof.
  split; [by rewrite engine_exhausted_acquire|].
  rewrite on_receive_connack_success_eq. cbv zeta.
  change (engine_ (sample_connection [] engine_exhausted)) with engine_exhausted.
  rewrite engine_exhausted_acquire. reflexivity.
Qed.

(** * Further properties *)

(** ** [ip::endpoint]: the constructors *)

(** X2. Round trip: an address of [L] bytes with [L] within the capacity
    is read back unchanged from the first [size()] bytes of [data()], and
    the bytes after it are zero. *)
Theorem endpoint_of_bytes_round_trip (B : bytes) (L : ip.socklen_t)
    (Hlen : length B = N.to_nat L)
    (Hcap : L ≤ ip.sizeof_sockaddr_storage) :
  ∃ e, ip.endpoint_of_bytes B L = Some e
     ∧ take (N.to_nat (ip.size e)) (ip.data e) = B
     ∧ drop (N.to_nat (ip.size e)) (ip.data e)
       = zero_bytes (ip.capacity - N.to_nat L).
Proof.
  assert (Hn : (N.to_nat L `min` ip.capacity = N.to_nat L)%nat).
  { rewrite capacity_eq. unfold ip.sizeof_sockaddr_storage in Hcap. lia. }
  eexists. split; [apply endpoint_of_bytes_Some; lia|].
  unfold ip.size, ip.data. cbn [ip.d_size ip.d_data]. rewrite Hn.
  rewrite <-Hlen, firstn_all. split.
  - by rewrite take_app_length.
  - by rewrite drop_app_length.
Qed.

Lemma endpoint_of_bytes_round_trip_witness :
  length (replicate 16 Byte.x7f) = N.to_nat 16
  ∧ 16 ≤ ip.sizeof_sockaddr_storage
  ∧ ∃ e, ip.endpoint_of_bytes (replicate 16 Byte.x7f) 16 = Some e
       ∧ take (N.to_nat (ip.size e)) (ip.data e) = replicate 16 Byte.x7f
       ∧ drop (N.to_nat (ip.size e)) (ip.data e)
         = zero_bytes (ip.capacity - N.to_nat 16).
Proof.
  assert (Hlen : length (replicate 16 Byte.x7f) = N.to_nat 16) by reflexivity.
  assert (Hcap : 16 ≤ ip.sizeof_sockaddr_storage) by (vm_compute; by intros [=]).
  split; [exact Hlen|]. split; [exact Hcap|].
  exact (endpoint_of_bytes_round_trip (replicate 16 Byte.x7f) 16 Hlen Hcap).
Defined.

(** X3. The constructor never looks past the capacity: two sources that
    agree on their first [capacity] bytes give the same result for every
    length, however they differ after that. *)
Theorem endpoint_of_bytes_ignores_tail (B B' : bytes) (L : ip.socklen_t)
    (Hhead : take ip.capacity B = take ip.capacity B') :
  ip.endpoint_of_bytes B L = ip.endpoint_of_bytes B' L.
Proof.
  set (n := (N.to_nat L `min` ip.capacity)%nat).
  assert (Hn : (n ≤ ip.capacity)%nat) by (subst n; lia).
  assert (Hlen : (length B `min` ip.capacity = length B' `min` ip.capacity)%nat).
  { apply (f_equal length) in Hhead. rewrite !length_take in Hhead. lia. }
  assert (Htake : take n B = take n B').
  { rewrite <-(Nat.min_l n ip.capacity) by done.
    by rewrite <-!take_take, Hhead. }
  destruct (decide (n ≤ length B)%nat) as [Hread|Hshort].
  - rewrite !endpoint_of_bytes_Some by (fold n; lia).
    fold n. by rewrite Htake.
  - unfold ip.endpoint_of_bytes. rewrite copy_length_eq. fold n.
    unfold memcpy. rewrite !decide_False by lia. done.
Qed.

Lemma endpoint_of_bytes_ignores_tail_witness :
  take ip.capacity (replicate 128 Byte.x01 ++ [Byte.x02])
  = take ip.capacity (replicate 128 Byte.x01 ++ [Byte.x03; Byte.x04])
  ∧ ip.endpoint_of_bytes (replicate 128 Byte.x01 ++ [Byte.x02]) 129
    = ip.endpoint_of_bytes (replicate 128 Byte.x01 ++ [Byte.x03; Byte.x04]) 129.
Proof.
  assert (Hhead : take ip.capacity (replicate 128 Byte.x01 ++ [Byte.x02])
                  = take ip.capacity (replicate 128 Byte.x01 ++ [Byte.x03; Byte.x04]))
    by reflexivity.
  split; [exact Hhead|].
  exact (endpoint_of_bytes_ignores_tail _ _ 129 Hhead).
Defined.

(** X4. The template constructor applied to an [endpoint] whose storage
    has its [capacity] bytes is always defined; it keeps the length and
    the first [min(size, capacity)] bytes and zeroes the rest.  It gives
    the same value again when applied to its result, and gives back its
    argument exactly when the argument's bytes after [size()] are zero. *)
Theorem endpoint_of_endpoint (e : ip.endpoint)
    (Hlen : length (ip.d_data e) = ip.capacity) :
  let n := (N.to_nat (ip.size e) `min` ip.capacity)%nat in
  let e' := {| ip.d_data := take n (ip.d_data e) ++ zero_bytes (ip.capacity - n);
               ip.d_size := ip.d_size e |} in
  ip.endpoint_of e = Some e'
  ∧ ip.endpoint_of e' = Some e'
  ∧ (e' = e ↔ drop n (ip.d_data e) = zero_bytes (ip.capacity - n)).
Proof.
  intros n e'. unfold ip.size in n.
  assert (Hn : (n ≤ ip.capacity)%nat) by (subst n; lia).
  split; [|split].
  - unfold ip.endpoint_of. cbn [ip.et_data ip.et_size endpoint_data_size].
    unfold ip.data, ip.size. apply endpoint_of_bytes_Some. fold n. lia.
  - unfold ip.endpoint_of. cbn [ip.et_data ip.et_size endpoint_data_size].
    unfold ip.data, ip.size. subst e'. cbn [ip.d_data ip.d_size].
    rewrite endpoint_of_bytes_Some.
    + fold n. do 2 f_equal.
      rewrite take_app_le by (rewrite length_take; lia).
      by rewrite take_take, Nat.min_id.
    + fold n. rewrite length_app, length_take, length_zero_bytes. lia.
  - subst e'. destruct e as [d sz]. cbn [ip.d_data ip.d_size] in *. split.
    + intros [= Hd]. rewrite <-(take_drop n d) in Hd at 2.
      by apply app_inv_head in Hd.
    + intros Hd. f_equal. rewrite <-Hd. apply take_drop.
Qed.

Lemma endpoint_of_endpoint_witness :
  length (ip.d_data (ip.set_size (ip.set_storage ip.endpoint_default
                                    (replicate 128 Byte.xff)) 16))
  = ip.capacity
  ∧ ip.endpoint_of (ip.set_size (ip.set_storage ip.endpoint_default
                                   (replicate 128 Byte.xff)) 16)
    = Some {| ip.d_data := replicate 16 Byte.xff ++ zero_bytes 112;
              ip.d_size := 16 |}.
Proof.
  split; [reflexivity|].
  apply (endpoint_of_endpoint
           (ip.set_size (ip.set_storage ip.endpoint_default
                           (replicate 128 Byte.xff)) 16)).
  reflexivity.
Defined.

(** ** [on_send]: the two loops *)

Lemma fold_size_t_add_cast (buffers : list bytes) (acc : size_t) :
  size_t_cast
    (fold_left (λ total_size buf, size_t_add total_size (buf_size buf)) buffers acc)
  = size_t_cast (acc + segments_total buffers).
Proof.
  revert acc. induction buffers as [|buf rest IH]; intros acc.
  - simpl. f_equal. unfold segments_total. simpl. lia.
  - cbn [fold_left]. rewrite IH. unfold size_t_add, size_t_cast, buf_size.
    rewrite N.Div0.add_mod_idemp_l. f_equal.
    unfold segments_total. cbn [sum_list_with]. lia.
Qed.

Lemma fold_size_t_add_bound (buffers : list bytes) (acc : size_t) :
  acc < 2 ^ 64 →
  fold_left (λ total_size buf, size_t_add total_size (buf_size buf)) buffers acc
  < 2 ^ 64.
Proof.
  revert acc. induction buffers as [|buf rest IH]; intros acc Hacc; [done|].
  cbn [fold_left]. apply IH. unfold size_t_add, size_t_cast.
  by apply N.mod_lt.
Qed.

(** X5. The first loop computes the total size of the segments modulo
    [2^64]: the sum wraps around instead of failing, whatever the
    segments. *)
Theorem total_size_of_wraps (buffers : list bytes) :
  total_size_of buffers = segments_total buffers mod 2 ^ 64.
Proof.
  unfold total_size_of.
  rewrite <-(size_t_cast_small (fold_left _ buffers 0))
    by (by apply fold_size_t_add_bound).
  by rewrite fold_size_t_add_cast.
Qed.

Lemma list_inserts_between (before buf old after : bytes) :
  length buf = length old →
  list_inserts (length before) buf (before ++ old ++ after)
  = before ++ buf ++ after.
Proof.
  intros Hlen. rewrite <-(Nat.add_0_r (length before)), list_inserts_app_r.
  f_equal. by apply list_inserts_0_r.
Qed.

Lemma list_inserts_middle (flat buf : bytes) (dest : nat) :
  (dest + length buf ≤ length flat)%nat →
  list_inserts dest buf flat
  = take dest flat ++ buf ++ drop (dest + length buf) flat.
Proof.
  intros Hroom.
  pose proof (list_inserts_between (take dest flat) buf
                (take (length buf) (drop dest flat))
                (drop (length buf) (drop dest flat))) as Hbetween.
  rewrite !take_drop, drop_drop in Hbetween.
  rewrite (length_take flat), Nat.min_l in Hbetween by lia.
  apply Hbetween. rewrite length_take, length_drop. lia.
Qed.

(** X6. The second loop, started at [dest] inside [flat_buffer], stays
    inside it exactly when the bytes from [dest] on have room for all the
    segments.  It then overwrites that many bytes with the segments, in
    order and without gaps, and leaves every byte before [dest] and after
    the last segment as it was; otherwise a [memcpy] runs past the end. *)
Theorem copy_buffers_spec (buffers : list bytes) (flat_buffer : bytes) (dest : nat)
    (Hdest : (dest ≤ length flat_buffer)%nat) :
  copy_buffers buffers flat_buffer dest
  = if decide (dest + length (concat buffers) ≤ length flat_buffer)%nat
    then Some (take dest flat_buffer ++ concat buffers
               ++ drop (dest + length (concat buffers)) flat_buffer)
    else None.
Proof.
  revert flat_buffer dest Hdest.
  induction buffers as [|buf rest IH]; intros flat dest Hdest.
  - simpl. rewrite decide_True, Nat.add_0_r by lia. by rewrite take_drop.
  - cbn [copy_buffers concat]. unfold buf_size. rewrite Nat2N.id.
    rewrite length_app. unfold memcpy.
    destruct (decide (dest + length buf ≤ length flat)%nat) as [Hroom|Hfull].
    + rewrite (decide_True (P := (_ ∧ _))) by (split; [done|lia]).
      rewrite firstn_all, IH by (rewrite length_inserts; lia).
      rewrite length_inserts.
      destruct (decide (dest + (length buf + length (concat rest)) ≤ length flat)%nat)
        as [Hall|Hnot].
      * rewrite decide_True by lia. f_equal.
        rewrite list_inserts_middle by done.
        rewrite (assoc_L (++) (take dest flat) buf).
        rewrite take_app_length'
          by (rewrite length_app, length_take; lia).
        rewrite drop_app_ge
          by (rewrite length_app, length_take; lia).
        rewrite drop_drop, length_app, length_take, <-!(assoc_L (++)).
        do 4 f_equal. lia.
      * by rewrite decide_False by lia.
    + rewrite (decide_False (P := (_ ∧ _))) by lia.
      by rewrite decide_False by lia.
Qed.

Lemma copy_buffers_spec_witness :
  (2 ≤ length [Byte.x0a; Byte.x0b; Byte.x0c; Byte.x0d; Byte.x0e; Byte.x0f])%nat
  ∧ copy_buffers [[Byte.x01]; []; [Byte.x02; Byte.x03]]
      [Byte.x0a; Byte.x0b; Byte.x0c; Byte.x0d; Byte.x0e; Byte.x0f] 2
    = Some [Byte.x0a; Byte.x0b; Byte.x01; Byte.x02; Byte.x03; Byte.x0f].
Proof.
  split; [simpl; lia|].
  rewrite (copy_buffers_spec [[Byte.x01]; []; [Byte.x02; Byte.x03]]
             [Byte.x0a; Byte.x0b; Byte.x0c; Byte.x0d; Byte.x0e; Byte.x0f] 2)
    by (simpl; lia).
  reflexivity.
Defined.

(** ** [on_send]: every value [Send] can return *)

Lemma send_failed_iff (sent : Z) (total : N) :
  total < 2 ^ 64 → is_ssize_t sent →
  (sent <? 0)%Z || negb (static_cast_size_t sent =? total) = false
  ↔ sent = Z.of_N total.
Proof.
  intros Hfit [Hlow Hhigh]. split.
  - intros Hok. apply orb_false_iff in Hok as [Hpos Heq].
    apply Z.ltb_ge in Hpos. apply negb_false_iff, N.eqb_eq in Heq.
    unfold static_cast_size_t in Heq. rewrite Z.mod_small in Heq by lia. lia.
  - intros ->. by apply send_failed_false.
Qed.

(** Counting in a trace that ends in a known list of events. *)
Ltac read_trace :=
  unfold close_count, notify_closed_count, sent_packets, socket_writes,
    released_ids, without_cout, closing_calls;
  rewrite ?omap_app, ?length_app; cbn;
  rewrite ?app_nil_r, <-?(assoc_L (++)); try done; try lia.

Section on_send_facts.

Context {SocketType : Type} `{!has_socket_api SocketType}.
Context {Engine : Type} `{!connection Engine}.
Variable const_buffer_sequence : packet_variant → list bytes.

Implicit Types c : mqtt_connection SocketType Engine.

(** X7. For a packet whose segments total [S] bytes, [on_send] has no
    undefined behaviour: it either returns or leaves by
    [am::system_error("send failed")].  It returns exactly when [Send]
    returns [S]; a negative value, a shorter count and a longer count are
    all failures. *)
Theorem on_send_returns_iff packet r c
    (Hfit : segments_total (const_buffer_sequence packet) < 2 ^ 64)
    (Hsent : is_ssize_t
               (Send (socket_ c) (concat (const_buffer_sequence packet))
                     (segments_total (const_buffer_sequence packet)) 0 (-1)%Z).1) :
  let S := segments_total (const_buffer_sequence packet) in
  let sent := (Send (socket_ c) (concat (const_buffer_sequence packet)) S 0 (-1)%Z).1 in
  let o := on_send const_buffer_sequence packet r c in
  ((∃ c', o = Returns () c') ∨ (∃ c', o = Throws (system_error "send failed") c'))
  ∧ ((∃ c', o = Returns () c') ↔ sent = Z.of_N S).
Proof.
  intros S sent o. subst o. rewrite on_send_eq by done. cbv zeta.
  fold S. fold S in Hsent. fold sent. fold sent in Hsent.
  pose proof (send_failed_iff sent S Hfit Hsent) as Hiff.
  destruct ((sent <? 0)%Z || negb (static_cast_size_t sent =? S)).
  - split.
    + right. destruct r as [pid|]; by eexists.
    + split.
      * intros [c' Hreturns]. destruct r as [pid|]; discriminate Hreturns.
      * intros Heq. apply Hiff in Heq. discriminate Heq.
  - split; [left; by eexists|].
    split; [intros _; by apply Hiff|intros _; by eexists].
Qed.

(** X8. When [Send] fails and no identifier came with the packet,
    [on_send] leaves by the exception without any call to the engine: the
    engine state is untouched and the only calls made are the output line
    and [Send]. *)
Theorem on_send_failure_without_id packet c
    (Hfit : segments_total (const_buffer_sequence packet) < 2 ^ 64)
    (Hsent : is_ssize_t
               (Send (socket_ c) (concat (const_buffer_sequence packet))
                     (segments_total (const_buffer_sequence packet)) 0 (-1)%Z).1)
    (Hfail : (Send (socket_ c) (concat (const_buffer_sequence packet))
                   (segments_total (const_buffer_sequence packet)) 0 (-1)%Z).1
             ≠ Z.of_N (segments_total (const_buffer_sequence packet))) :
  on_send const_buffer_sequence packet None c
  = Throws (system_error "send failed")
      {| socket_ := (Send (socket_ c) (concat (const_buffer_sequence packet))
                          (segments_total (const_buffer_sequence packet)) 0 (-1)%Z).2;
         engine_ := engine_ c;
         trace := trace c
                  ++ [ev_cout "send:";
                      ev_Send (concat (const_buffer_sequence packet))
                              (segments_total (const_buffer_sequence packet)) 0 (-1)] |}.
Proof.
  rewrite on_send_eq by done. cbv zeta.
  pose proof (send_failed_iff _ _ Hfit Hsent) as Hiff.
  destruct (_ || _); [done|].
  destruct Hfail. by apply Hiff.
Qed.

(** X9. Whatever the packet, the identifier and the value returned by
    [Send], [on_send] never calls the socket's [Close], never calls
    [notify_closed] and hands no packet to the engine's [send]: a failed
    send is reported by the exception only. *)
Theorem on_send_never_closes packet r c :
  let c' := final_state (on_send const_buffer_sequence packet r c) in
  close_count (trace c') = close_count (trace c)
  ∧ notify_closed_count (trace c') = notify_closed_count (trace c)
  ∧ sent_packets (trace c') = sent_packets (trace c).
Proof.
  cbv zeta. unfold on_send, try_catch, cout, record, socket_Send.
  unfold mbind, M_bind at 1. cbn [final_state].
  unfold mbind, M_bind, mret, M_ret, undefined_behaviour.
  destruct (copy_buffers _ _ _) as [flat_buffer|]; cbn.
  - destruct (Send _ _ _ _ _) as [sent s]. cbn.
    destruct (_ || _); [destruct r as [pid|]|];
      unfold release_if_present, call_release_packet_id, throw; cbn;
      repeat split; read_trace.
  - repeat split; read_trace.
Qed.

(** X10. Only the concatenation of the segments matters to [on_send]: two
    layouts of the same bytes, cut into segments differently (empty
    segments included), lead to the same calls and the same outcome. *)
Theorem on_send_segmentation_irrelevant
    (other_sequence : packet_variant → list bytes) packet packet' r c
    (Hfit : segments_total (const_buffer_sequence packet) < 2 ^ 64)
    (Hsame : concat (const_buffer_sequence packet)
             = concat (other_sequence packet')) :
  on_send const_buffer_sequence packet r c
  = on_send other_sequence packet' r c.
Proof.
  assert (Htotal : segments_total (const_buffer_sequence packet)
                   = segments_total (other_sequence packet')).
  { by rewrite <-!length_concat_segments, Hsame. }
  rewrite (on_send_eq other_sequence) by (by rewrite <-Htotal).
  rewrite on_send_eq by done.
  by rewrite Hsame, Htotal.
Qed.

End on_send_facts.

Lemma on_send_returns_iff_witness :
  segments_total (sample_buffers (publish2 7)) < 2 ^ 64
  ∧ is_ssize_t 16
  ∧ ¬ ∃ c', on_send sample_buffers (publish2 7) (Some 7)
              (sample_connection [16%Z] engine_fresh)
            = Returns () c'.
Proof.
  assert (Hfit : segments_total (sample_buffers (publish2 7)) < 2 ^ 64) by done.
  assert (Hsent : is_ssize_t 16) by (unfold is_ssize_t; lia).
  split; [exact Hfit|]. split; [exact Hsent|].
  intros Hreturns.
  apply (on_send_returns_iff sample_buffers (publish2 7) (Some 7)
           (sample_connection [16%Z] engine_fresh) Hfit) in Hreturns.
  - discriminate Hreturns.
  - exact Hsent.
Defined.

Lemma on_send_failure_without_id_witness :
  segments_total (sample_buffers publish1) < 2 ^ 64
  ∧ is_ssize_t (-1)
  ∧ (-1)%Z ≠ Z.of_N (segments_total (sample_buffers publish1))
  ∧ on_send sample_buffers publish1 None (sample_connection [(-1)%Z] engine_fresh)
    = Throws (system_error "send failed")
        {| socket_ := {| send_script := []; close_calls := 0 |};
           engine_ := engine_fresh;
           trace := [ev_cout "send:";
                     ev_Send (concat (sample_buffers publish1)) 15 0 (-1)] |}.
Proof.
  assert (Hfit : segments_total (sample_buffers publish1) < 2 ^ 64) by done.
  assert (Hsent : is_ssize_t (-1)) by (unfold is_ssize_t; lia).
  assert (Hfail : (-1)%Z ≠ Z.of_N (segments_total (sample_buffers publish1)))
    by done.
  split; [exact Hfit|]. split; [exact Hsent|]. split; [exact Hfail|].
  etransitivity.
  - apply (on_send_failure_without_id sample_buffers publish1
             (sample_connection [(-1)%Z] engine_fresh) Hfit).
    + exact Hsent.
    + exact Hfail.
  - reflexivity.
Defined.

Lemma on_send_segmentation_irrelevant_witness :
  segments_total (sample_buffers (publish2 7)) < 2 ^ 64
  ∧ concat (sample_buffers (publish2 7))
    = concat ((λ p, [[]; concat (sample_buffers p); []]) (publish2 7))
  ∧ on_send sample_buffers (publish2 7) (Some 7) (sample_connection [] engine_fresh)
    = on_send (λ p, [[]; concat (sample_buffers p); []]) (publish2 7) (Some 7)
        (sample_connection [] engine_fresh).
Proof.
  assert (Hfit : segments_total (sample_buffers (publish2 7)) < 2 ^ 64) by done.
  assert (Hsame : concat (sample_buffers (publish2 7))
                  = concat ((λ p, [[]; concat (sample_buffers p); []]) (publish2 7)))
    by reflexivity.
  split; [exact Hfit|]. split; [exact Hsame|].
  exact (on_send_segmentation_irrelevant sample_buffers
           (λ p, [[]; concat (sample_buffers p); []])
           (publish2 7) (publish2 7) (Some 7)
           (sample_connection [] engine_fresh) Hfit Hsame).
Defined.

(** ** [on_receive]: what each kind of packet can cause *)

Lemma without_cout_app t1 t2 :
  without_cout (t1 ++ t2) = without_cout t1 ++ without_cout t2.
Proof. apply omap_app. Qed.

(** A stretch of trace made of output statements only holds no call. *)
Lemma only_cout_no_call (t : list event) :
  without_cout t = [] →
  sent_packets t = [] ∧ socket_writes t = [] ∧ released_ids t = []
  ∧ close_count t = 0%nat ∧ notify_closed_count t = 0%nat
  ∧ closing_calls t = [].
Proof.
  induction t as [|e t IH]; [done|].
  destruct e; cbn; first [done | intros Hcout; by apply IH].
Qed.

Section on_receive_facts.

Context {SocketType : Type} `{!has_socket_api SocketType}.
Context {Engine : Type} `{!connection Engine}.

Implicit Types c : mqtt_connection SocketType Engine.

(** The lambdas that only write to [std::cout], and the last, empty one. *)
Lemma on_receive_logged (p : packet_variant) c :
  only_logged p = true →
  ∃ t, without_cout t = []
     ∧ on_receive p c
       = Returns () {| socket_ := socket_ c; engine_ := engine_ c;
                       trace := trace c ++ t |}.
Proof.
  intros Hp. destruct p; try discriminate Hp;
    unfold on_receive, mbind, M_bind, mret, M_ret, cout, record; cbn;
    rewrite <-?(assoc_L (++)); eexists; (split; [|reflexivity]); reflexivity.
Qed.

(** X11. A packet that is neither a connect-acknowledgement nor a
    publish-complete (a publish, a publish-ack, a publish-received, a
    publish-release, a disconnect, any other kind) is only written to the
    output: [on_receive] returns, the socket and the engine are left as
    they were and no call is made to either. *)
Theorem on_receive_only_logged (p : packet_variant) c
    (Hp : only_logged p = true) :
  ∃ c', on_receive p c = Returns () c'
      ∧ socket_ c' = socket_ c
      ∧ engine_ c' = engine_ c
      ∧ without_cout (trace c') = without_cout (trace c).
Proof.
  destruct (on_receive_logged p c Hp) as (t & Ht & ->).
  eexists. split; [done|]. cbn. split; [done|]. split; [done|].
  by rewrite without_cout_app, Ht, app_nil_r.
Qed.

(** X12. Whatever packet is received and however its handling ends,
    [on_receive] never calls the socket's [Send] and never calls
    [release_packet_id]: bytes go out through [on_send] only, and an
    identifier acquired for a publish is not given back here. *)
Theorem on_receive_never_writes (p : packet_variant) c :
  let c' := final_state (on_receive p c) in
  socket_writes (trace c') = socket_writes (trace c)
  ∧ released_ids (trace c') = released_ids (trace c).
Proof.
  cbv zeta. destruct (only_logged p) eqn:Hp.
  { destruct (on_receive_logged p c Hp) as (t & Ht & ->).
    cbn [final_state trace socket_ engine_].
    apply only_cout_no_call in Ht as (_ & Hw & Hr & _).
    by rewrite socket_writes_app, released_ids_app, Hw, Hr, !app_nil_r. }
  destruct p as [code| | | | |pid| |]; try discriminate Hp.
  - unfold on_receive, mbind, M_bind, mret, M_ret, cout, record, socket_Close,
      call_notify_closed, call_send, call_acquire_unique_packet_id, deref,
      undefined_behaviour.
    cbn. destruct (error_code_bool (make_error_code code)); cbn.
    + destruct (Close (socket_ c)) as [status s]. cbn. split; read_trace.
    + destruct (acquire_unique_packet_id _) as [[pid2|] e2]; cbn;
        [|split; read_trace].
      destruct (acquire_unique_packet_id _) as [[pid3|] e4]; cbn;
        split; read_trace.
  - unfold on_receive, mbind, M_bind, cout, record, call_send. cbn.
    split; read_trace.
Qed.

(** X13. [on_receive] calls the socket's [Close] for a connect-
    acknowledgement with a failure code, once, followed by one
    [notify_closed] (in this order), and for no other packet: in every
    other case neither call is made and the socket is left exactly as it
    was, also when the handling ends in undefined behaviour. *)
Theorem on_receive_closes_iff_failed_connack (p : packet_variant) c :
  let c' := final_state (on_receive p c) in
  close_count (trace c')
  = (close_count (trace c) + if is_failed_connack p then 1 else 0)%nat
  ∧ notify_closed_count (trace c')
    = (notify_closed_count (trace c) + if is_failed_connack p then 1 else 0)%nat
  ∧ socket_ c' = (if is_failed_connack p then (Close (socket_ c)).2 else socket_ c)
  ∧ closing_calls (trace c')
    = closing_calls (trace c)
      ++ if is_failed_connack p then [ev_Close; ev_notify_closed] else [].
Proof.
  cbv zeta. destruct (only_logged p) eqn:Hp.
  { destruct (on_receive_logged p c Hp) as (t & Ht & ->).
    cbn [final_state trace socket_ engine_].
    apply only_cout_no_call in Ht as (_ & _ & _ & Hc & Hn & Hcalls).
    rewrite close_count_app, notify_closed_count_app, Hc, Hn.
    unfold closing_calls in *. rewrite omap_app, Hcalls.
    by destruct p. }
  destruct p as [code| | | | |pid| |]; try discriminate Hp.
  - unfold on_receive, mbind, M_bind, mret, M_ret, cout, record, socket_Close,
      call_notify_closed, call_send, call_acquire_unique_packet_id, deref,
      undefined_behaviour.
    cbn. destruct (error_code_bool (make_error_code code)); cbn.
    + destruct (Close (socket_ c)) as [status s]. cbn. repeat split; read_trace.
    + destruct (acquire_unique_packet_id _) as [[pid2|] e2]; cbn;
        [|repeat split; read_trace].
      destruct (acquire_unique_packet_id _) as [[pid3|] e4]; cbn;
        repeat split; read_trace.
  - unfold on_receive, mbind, M_bind, cout, record, call_send. cbn.
    repeat split; read_trace.
Qed.

(** A run over packets that are only logged. *)
Lemma run_on_receive_logged (packets : list packet_variant) c :
  Forall (λ p, only_logged p = true) packets →
  ∃ t, without_cout t = []
     ∧ run_on_receive packets c
       = Returns () {| socket_ := socket_ c; engine_ := engine_ c;
                       trace := trace c ++ t |}.
Proof.
  intros Hall. revert c. induction Hall as [|p rest Hp _ IH]; intros c.
  - exists []. split; [done|]. cbn. unfold mret, M_ret.
    rewrite app_nil_r. by destruct c.
  - destruct (on_receive_logged p c Hp) as (t1 & Ht1 & Hrun1).
    cbn [run_on_receive]. unfold mbind, M_bind. rewrite Hrun1.
    destruct (IH {| socket_ := socket_ c; engine_ := engine_ c;
                    trace := trace c ++ t1 |}) as (t2 & Ht2 & ->).
    exists (t1 ++ t2). split.
    + by rewrite without_cout_app, Ht1, Ht2.
    + cbn. by rewrite (assoc_L (++)).
Qed.

Lemma run_on_receive_app (packets1 packets2 : list packet_variant) c :
  run_on_receive (packets1 ++ packets2) c
  = match run_on_receive packets1 c with
    | Returns _ c1 => run_on_receive packets2 c1
    | Throws e c1 => Throws e c1
    | Undefined c1 => Undefined c1
    end.
Proof.
  revert c. induction packets1 as [|p rest IH]; intros c; [done|].
  cbn [app run_on_receive]. unfold mbind, M_bind.
  destruct (on_receive p c) as [[] c1|e c1|c1]; [apply IH|done|done].
Qed.

(** ** [on_error], [on_close] and the two hooks *)

(** X14. [on_error] and [on_close] differ in their output line only.  A
    run of [n] of them, in any mix and with any error codes, makes the
    calls [Close], [notify_closed], [Close], [notify_closed], ..., each
    [Close] right before its [notify_closed], and leaves the socket and
    the engine in states that depend on [n] alone. *)
Theorem closing_callbacks_calls (cbs : list closing_callback) c :
  ∃ c', run_closing_callbacks cbs c = Returns () c'
      ∧ without_cout (trace c')
        = without_cout (trace c)
          ++ concat (replicate (length cbs) [ev_Close; ev_notify_closed])
      ∧ socket_ c' = Nat.iter (length cbs) (λ s, (Close s).2) (socket_ c)
      ∧ engine_ c' = Nat.iter (length cbs) notify_closed (engine_ c).
Proof.
  revert c. induction cbs as [|cb rest IH]; intros c.
  - eexists. split; [done|]. cbn. by rewrite app_nil_r.
  - cbn [run_closing_callbacks]. unfold mbind, M_bind.
    rewrite run_closing_callback_eq.
    edestruct IH as (c' & -> & Htrace & Hsocket & Hengine).
    eexists. split; [done|]. rewrite Htrace, Hsocket, Hengine. cbn [length].
    rewrite !Nat.iter_succ_r. cbn [socket_ engine_ trace replicate concat].
    split; [|done].
    rewrite without_cout_app. cbn. by rewrite <-(assoc_L (++)).
Qed.

(** X15. The two hooks change nothing: [on_packet_id_release] returns
    the object as it got it, and [on_timer_op] returns after output only,
    with the socket and the engine untouched and no call to either,
    whether or not a duration comes with the event. *)
Theorem hooks_change_nothing (pid : packet_id_type) (op kind : nat)
    (ms : option Z) c :
  on_packet_id_release pid c = Returns () c
  ∧ ∃ c', on_timer_op op kind ms c = Returns () c'
        ∧ socket_ c' = socket_ c
        ∧ engine_ c' = engine_ c
        ∧ without_cout (trace c') = without_cout (trace c).
Proof.
  split; [done|].
  unfold on_timer_op, mbind, M_bind, mret, M_ret, cout, record.
  destruct ms as [ms|]; cbn; (eexists; split; [done|]); cbn;
    repeat split; read_trace.
Qed.

End on_receive_facts.

Lemma on_receive_only_logged_witness :
  only_logged (v5_pubrec_packet 9) = true
  ∧ ∃ c', on_receive (v5_pubrec_packet 9) (sample_connection [] engine_fresh)
          = Returns () c'
        ∧ socket_ c' = socket_ (sample_connection [] engine_fresh)
        ∧ engine_ c' = engine_ (sample_connection [] engine_fresh)
        ∧ without_cout (trace c')
          = without_cout (trace (sample_connection [] engine_fresh)).
Proof.
  split; [reflexivity|].
  apply (on_receive_only_logged (v5_pubrec_packet 9)
           (sample_connection [] engine_fresh)).
  reflexivity.
Defined.

(** ** A whole session *)

(** X16. A session as the engine delivers it: a successful connect-
    acknowledgement, then any number of packets that are only logged
    (publishes and the acknowledgements before the last one), then a
    publish-complete.  When the two acquisitions yield [pid2] and [pid3],
    the packets handed to the engine are the three publishes and then one
    disconnect, in this order; the whole run returns normally, writes
    nothing to the socket and does not close it. *)
Theorem session_publishes_then_disconnects
    {SocketType : Type} `{!has_socket_api SocketType}
    {Engine : Type} `{!connection Engine}
    (c : mqtt_connection SocketType Engine)
    (pid2 pid3 pid : packet_id_type) (e2 e4 : Engine)
    (acks : list packet_variant)
    (Hpid2 : acquire_unique_packet_id (send publish1 (engine_ c))
             = (Some pid2, e2))
    (Hpid3 : acquire_unique_packet_id (send (publish2 pid2) e2)
             = (Some pid3, e4))
    (Hacks : Forall (λ p, only_logged p = true) acks) :
  ∃ c',
    run_on_receive (v5_connack_packet 0 :: acks ++ [v5_pubcomp_packet pid]) c
    = Returns () c'
    ∧ sent_packets (trace c')
      = sent_packets (trace c)
        ++ [publish1; publish2 pid2; publish3 pid3; v5_disconnect_packet]
    ∧ engine_ c' = send v5_disconnect_packet (send (publish3 pid3) e4)
    ∧ socket_ c' = socket_ c
    ∧ socket_writes (trace c') = socket_writes (trace c)
    ∧ close_count (trace c') = close_count (trace c).
Proof.
  cbn [run_on_receive]. unfold mbind at 1, M_bind at 1.
  rewrite on_receive_connack_success_eq. cbv zeta. rewrite Hpid2, Hpid3.
  rewrite run_on_receive_app.
  match goal with
  | |- context [run_on_receive acks ?c1] =>
      destruct (run_on_receive_logged acks c1 Hacks) as (t' & Ht' & ->)
  end.
  apply only_cout_no_call in Ht' as (Hsent' & Hwrites' & _ & Hclose' & _).
  cbn [run_on_receive socket_ engine_ trace].
  unfold on_receive, mbind, M_bind, mret, M_ret, cout, record, call_send.
  cbn [socket_ engine_ trace].
  eexists. split; [reflexivity|]. cbn [socket_ engine_ trace].
  rewrite <-!(assoc_L (++)).
  rewrite !sent_packets_app, !socket_writes_app, !close_count_app.
  rewrite Hsent', Hwrites', Hclose'. cbn.
  rewrite ?app_nil_r. repeat split; try done; lia.
Qed.

Lemma session_publishes_then_disconnects_witness :
  acquire_unique_packet_id (send publish1 engine_fresh)
  = (Some 1, {| pid_in_use := {[1]} ∪ ∅; send_queue := [publish1];
                closed := false |})
  ∧ acquire_unique_packet_id
      (send (publish2 1) {| pid_in_use := {[1]} ∪ ∅; send_queue := [publish1];
                            closed := false |})
    = (Some 2, {| pid_in_use := {[2]} ∪ ({[1]} ∪ ∅);
                  send_queue := [publish1; publish2 1]; closed := false |})
  ∧ Forall (λ p, only_logged p = true) [v5_puback_packet 1; v5_pubrec_packet 2]
  ∧ ∃ c',
      run_on_receive
        (v5_connack_packet 0
         :: [v5_puback_packet 1; v5_pubrec_packet 2] ++ [v5_pubcomp_packet 2])
        (sample_connection [] engine_fresh)
      = Returns () c'
      ∧ sent_packets (trace c')
        = sent_packets (trace (sample_connection [] engine_fresh))
          ++ [publish1; publish2 1; publish3 2; v5_disconnect_packet]
      ∧ engine_ c'
        = send v5_disconnect_packet
            (send (publish3 2)
               {| pid_in_use := {[2]} ∪ ({[1]} ∪ ∅);
                  send_queue := [publish1; publish2 1]; closed := false |})
      ∧ socket_ c' = socket_ (sample_connection [] engine_fresh)
      ∧ socket_writes (trace c')
        = socket_writes (trace (sample_connection [] engine_fresh))
      ∧ close_count (trace c')
        = close_count (trace (sample_connection [] engine_fresh)).
Proof.
  assert (Hpid2 : acquire_unique_packet_id (send publish1 engine_fresh)
                  = (Some 1, {| pid_in_use := {[1]} ∪ ∅; send_queue := [publish1];
                                closed := false |}))
    by reflexivity.
  assert (Hpid3 : acquire_unique_packet_id
                    (send (publish2 1)
                       {| pid_in_use := {[1]} ∪ ∅; send_queue := [publish1];
                          closed := false |})
                  = (Some 2, {| pid_in_use := {[2]} ∪ ({[1]} ∪ ∅);
                                send_queue := [publish1; publish2 1];
                                closed := false |}))
    by reflexivity.
  assert (Hacks : Forall (λ p, only_logged p = true)
                    [v5_puback_packet 1; v5_pubrec_packet 2])
    by (repeat constructor).
  split; [exact Hpid2|]. split; [exact Hpid3|]. split; [exact Hacks|].
  exact (session_publishes_then_disconnects
           (sample_connection [] engine_fresh) 1 2 2 _ _
           [v5_puback_packet 1; v5_pubrec_packet 2] Hpid2 Hpid3 Hacks).
Defined.

(** ** [ip::endpoint]: filling in place *)

(** X17. The two ways to obtain an address agree: a default-constructed
    value whose storage is then filled, through [storage()], with an
    address of [L] bytes followed by zeros, and whose length is then set
    to [L] through [size()], equals the value constructed from that
    address and [L], for every [L] within the capacity. *)
Theorem endpoint_fill_in_place (B : bytes) (L : ip.socklen_t)
    (Hlen : length B = N.to_nat L)
    (Hcap : L ≤ ip.sizeof_sockaddr_storage) :
  ip.endpoint_of_bytes B L
  = Some (ip.set_size
            (ip.set_storage ip.endpoint_default
               (B ++ zero_bytes (ip.capacity - length B)))
            L).
Proof.
  assert (Hn : (N.to_nat L `min` ip.capacity = length B)%nat).
  { rewrite capacity_eq. unfold ip.sizeof_sockaddr_storage in Hcap. lia. }
  rewrite endpoint_of_bytes_Some by lia.
  unfold ip.set_size, ip.set_storage. cbn [ip.d_data ip.d_size].
  by rewrite Hn, firstn_all.
Qed.

Lemma endpoint_fill_in_place_witness :
  length (replicate 28 Byte.x11) = N.to_nat 28
  ∧ 28 ≤ ip.sizeof_sockaddr_storage
  ∧ ip.endpoint_of_bytes (replicate 28 Byte.x11) 28
    = Some (ip.set_size
              (ip.set_storage ip.endpoint_default
                 (replicate 28 Byte.x11
                  ++ zero_bytes (ip.capacity - length (replicate 28 Byte.x11))))
              28).
Proof.
  assert (Hlen : length (replicate 28 Byte.x11) = N.to_nat 28) by reflexivity.
  assert (Hcap : 28 ≤ ip.sizeof_sockaddr_storage) by (vm_compute; by intros [=]).
  split; [exact Hlen|]. split; [exact Hcap|].
  exact (endpoint_fill_in_place (replicate 28 Byte.x11) 28 Hlen Hcap).
Defined.

(** ** After a publish-complete *)



